(** * Heritage Quest: the jigsaw puzzle session and the dashboard statistics

    A shallow embedding of the two React components of the repository that
    carry domain logic:

    - [PuzzleGame]: the piece set, drag and drop, the completion check and
      the persisted score;
    - [GameDashboard]: the statistics derived from the rows of the
      [game_progress] table.

    JavaScript numbers that the code only uses as integers (piece ids, slot
    indices, seconds, milliseconds, scores) are modelled as [Z].  The piece
    array is a [list] of records updated by index: the objects of the array
    are distinct, [find] returns a reference to one of them, and a mutation
    through that reference is an update at the index where it was found. *)

From Stdlib Require Import ZArith Lia.
From stdpp Require Import base decidable option numbers list.

Local Open Scope Z_scope.

(** ** The puzzle session (component [PuzzleGame]) *)

Module PuzzleGame.

(** [interface PuzzlePiece]. *)
Record PuzzlePiece : Type := mkPiece {
  id : Z;
  correctPosition : Z;
  currentPosition : Z;
  isPlaced : bool
}.

#[export] Instance PuzzlePiece_eq_dec : EqDecision PuzzlePiece.
Proof. solve_decision. Defined.

(** The row handed to [supabase.from('game_progress').insert]; [user_id],
    [level_id] and [completed_at] are constants of the session and play no
    part in what follows. *)
Record GameResult : Type := mkResult {
  time_taken : Z;
  score : Z
}.

(** How the awaited [insert] settles: it resolves with [error] unset, it
    resolves with [error] set, or the awaited promise rejects and control
    reaches the [catch] clause. *)
Inductive InsertOutcome : Type :=
  | InsertOk
  | InsertError
  | InsertThrows.

(** Notifications raised through [toast]. *)
Inductive Toast : Type :=
  | ToastCongratulations (timeTaken : Z)
  | ToastSaveFailed.

(** The hooks of the component, together with a log of what it has sent
    outside: the rows it has passed to [insert] (whether or not the insert then
    succeeded), the toasts it has raised and
    the number of [console.error] calls. *)
Record GameState : Type := mkState {
  pieces : list PuzzlePiece;
  draggedPiece : option Z;
  gameStartTime : Z;
  gameCompleted : bool;
  completionTime : option Z;
  insertCalls : list GameResult;
  toasts : list Toast;
  consoleErrors : nat
}.

(** The state of the first render: [useState([])], [useState(null)],
    [useState(Date.now())], [useState(false)], [useState(null)]. *)
Definition initialState (now : Z) : GameState :=
  {| pieces := [];
     draggedPiece := None;
     gameStartTime := now;
     gameCompleted := false;
     completionTime := None;
     insertCalls := [];
     toasts := [];
     consoleErrors := 0 |}.

(** *** Initialisation *)

(** The loop of [initializePuzzle]: pieces [0 .. n-1], each with
    [correctPosition = id], in the pieces area and not placed. *)
Definition newPiece (i : nat) : PuzzlePiece :=
  {| id := Z.of_nat i;
     correctPosition := Z.of_nat i;
     currentPosition := -1;
     isPlaced := false |}.

Definition initialPieces (n : nat) : list PuzzlePiece :=
  newPiece <$> seq 0 n.

(** [[...initialPieces].sort(() => Math.random() - 0.5)] reorders the
    array; which order comes out depends on the random draws, so the
    shuffle is a parameter that is only known to permute its argument. *)
Definition initializePuzzle
    (shuffle : list PuzzlePiece → list PuzzlePiece) (n : nat) : list PuzzlePiece :=
  shuffle (initialPieces n).

(** *** Drag and drop *)

Definition handleDragStart (pieceId : Z) (st : GameState) : GameState :=
  {| pieces := pieces st;
     draggedPiece := Some pieceId;
     gameStartTime := gameStartTime st;
     gameCompleted := gameCompleted st;
     completionTime := completionTime st;
     insertCalls := insertCalls st;
     toasts := toasts st;
     consoleErrors := consoleErrors st |}.

(** [occupiedPiece.currentPosition = -1; occupiedPiece.isPlaced = false]. *)
Definition evict (p : PuzzlePiece) : PuzzlePiece :=
  {| id := id p;
     correctPosition := correctPosition p;
     currentPosition := -1;
     isPlaced := false |}.

(** [newPieces[pieceIndex].currentPosition = targetPosition;
     newPieces[pieceIndex].isPlaced = true]. *)
Definition place (targetPosition : Z) (p : PuzzlePiece) : PuzzlePiece :=
  {| id := id p;
     correctPosition := correctPosition p;
     currentPosition := targetPosition;
     isPlaced := true |}.

(** The updater passed to [setPieces] in [handleDrop].  [findIndex] and
    [find] both return the first match; the occupant is looked up before
    anything is written, and is evicted through its reference before the
    dragged piece is written at [pieceIndex]. *)
Definition dropUpdater (dragged targetPosition : Z)
    (prev : list PuzzlePiece) : list PuzzlePiece :=
  let newPieces := prev in
  match list_find (λ p, id p = dragged) newPieces with
  | Some (pieceIndex, _) =>
      let evicted :=
        match list_find (λ p, currentPosition p = targetPosition) newPieces with
        | Some (occupiedIndex, _) => alter evict occupiedIndex newPieces
        | None => newPieces
        end in
      alter (place targetPosition) pieceIndex evicted
  | None => newPieces
  end.

(** [handleDrop]: nothing happens unless a piece is being dragged;
    otherwise the updater runs and the drag marker is cleared. *)
Definition handleDrop (targetPosition : Z) (st : GameState) : GameState :=
  match draggedPiece st with
  | None => st
  | Some dragged =>
      {| pieces := dropUpdater dragged targetPosition (pieces st);
         draggedPiece := None;
         gameStartTime := gameStartTime st;
         gameCompleted := gameCompleted st;
         completionTime := completionTime st;
         insertCalls := insertCalls st;
         toasts := toasts st;
         consoleErrors := consoleErrors st |}
  end.

(** *** Completion and the persisted result *)

(** The predicate of [pieces.every(...)] in [checkGameCompletion]. *)
Definition pieceInPlace (piece : PuzzlePiece) : bool :=
  isPlaced piece && (currentPosition piece =? correctPosition piece).

Definition allPlaced (ps : list PuzzlePiece) : bool :=
  forallb pieceInPlace ps.

(** [saveGameResult] up to its [await]: the score is computed and the row
    is handed to [insert]. *)
Definition saveGameResult_request (timeTaken : Z) (st : GameState) : GameState :=
  let score := Z.max (1000 - timeTaken) 100 in
  {| pieces := pieces st;
     draggedPiece := draggedPiece st;
     gameStartTime := gameStartTime st;
     gameCompleted := gameCompleted st;
     completionTime := completionTime st;
     insertCalls := insertCalls st ++ [ {| time_taken := timeTaken; score := score |} ];
     toasts := toasts st;
     consoleErrors := consoleErrors st |}.

(** [saveGameResult] after its [await]: [if (error)] logs and raises the
    destructive toast, [catch] only logs, success does nothing. *)
Definition saveGameResult_settle (outcome : InsertOutcome) (st : GameState) : GameState :=
  match outcome with
  | InsertOk => st
  | InsertError =>
      {| pieces := pieces st;
         draggedPiece := draggedPiece st;
         gameStartTime := gameStartTime st;
         gameCompleted := gameCompleted st;
         completionTime := completionTime st;
         insertCalls := insertCalls st;
         toasts := toasts st ++ [ToastSaveFailed];
         consoleErrors := S (consoleErrors st) |}
  | InsertThrows =>
      {| pieces := pieces st;
         draggedPiece := draggedPiece st;
         gameStartTime := gameStartTime st;
         gameCompleted := gameCompleted st;
         completionTime := completionTime st;
         insertCalls := insertCalls st;
         toasts := toasts st;
         consoleErrors := S (consoleErrors st) |}
  end.

Definition saveGameResult (timeTaken : Z) (outcome : InsertOutcome)
    (st : GameState) : GameState :=
  saveGameResult_settle outcome (saveGameResult_request timeTaken st).

(** [setCompletionTime(timeTaken); setGameCompleted(true)]. *)
Definition commitCompletion (timeTaken : Z) (st : GameState) : GameState :=
  {| pieces := pieces st;
     draggedPiece := draggedPiece st;
     gameStartTime := gameStartTime st;
     gameCompleted := true;
     completionTime := Some timeTaken;
     insertCalls := insertCalls st;
     toasts := toasts st;
     consoleErrors := consoleErrors st |}.

Definition raiseToast (t : Toast) (st : GameState) : GameState :=
  {| pieces := pieces st;
     draggedPiece := draggedPiece st;
     gameStartTime := gameStartTime st;
     gameCompleted := gameCompleted st;
     completionTime := completionTime st;
     insertCalls := insertCalls st;
     toasts := toasts st ++ [t];
     consoleErrors := consoleErrors st |}.

(** [checkGameCompletion], run at time [endTime] (the value of
    [Date.now()], in milliseconds).  The completion is committed, the row
    is handed to [insert], the congratulation is raised, and the insert
    settles afterwards; the settling touches the logs only, so it is
    sequenced here rather than interleaved with later events. *)
Definition checkGameCompletion (endTime : Z) (outcome : InsertOutcome)
    (st : GameState) : GameState :=
  if allPlaced (pieces st) && negb (gameCompleted st) then
    let timeTaken := (endTime - gameStartTime st) `div` 1000 in
    saveGameResult_settle outcome
      (raiseToast (ToastCongratulations timeTaken)
         (saveGameResult_request timeTaken
            (commitCompletion timeTaken st)))
  else st.

(** *** The session as a transition system *)

Definition setPieces (ps : list PuzzlePiece) (st : GameState) : GameState :=
  {| pieces := ps;
     draggedPiece := draggedPiece st;
     gameStartTime := gameStartTime st;
     gameCompleted := gameCompleted st;
     completionTime := completionTime st;
     insertCalls := insertCalls st;
     toasts := toasts st;
     consoleErrors := consoleErrors st |}.

(** Mounting the component.  The first render has [pieces = []] and
    [gameCompleted = false].  Its two effects then run in the order they
    are declared, both closed over the values of that render:
    [initializePuzzle] schedules the shuffled pieces, and
    [checkGameCompletion] inspects the still empty piece array.  The
    scheduled updates are applied together, and since [pieces] changed the
    second render runs [checkGameCompletion] once more. *)
Definition mount (shuffle : list PuzzlePiece → list PuzzlePiece) (n : nat)
    (startTime endTime : Z) (outcome : InsertOutcome) : GameState :=
  let firstRender := initialState startTime in
  let shuffled := initializePuzzle shuffle n in
  let afterEffects := setPieces shuffled (checkGameCompletion endTime outcome firstRender) in
  checkGameCompletion endTime outcome afterEffects.

(** The user's interactions.  A drop carries the time at which the
    ensuing completion check reads the clock and the way an insert made
    by that check settles. *)
Inductive Event : Type :=
  | DragStart (pieceId : Z)
  | Drop (targetPosition : Z) (endTime : Z) (outcome : InsertOutcome).

(** [handleDragStart] leaves [pieces] alone, so the effect on [pieces]
    does not run.  [handleDrop] returns early when nothing is dragged;
    otherwise it installs a fresh array, and the effect runs
    [checkGameCompletion] on the updated state. *)
Definition step (ev : Event) (st : GameState) : GameState :=
  match ev with
  | DragStart pieceId => handleDragStart pieceId st
  | Drop targetPosition endTime outcome =>
      match draggedPiece st with
      | None => handleDrop targetPosition st
      | Some _ => checkGameCompletion endTime outcome (handleDrop targetPosition st)
      end
  end.

Definition run (evs : list Event) (st : GameState) : GameState :=
  foldl (λ s ev, step ev s) st evs.

(** The states a session can be in: mounted with some shuffle that
    permutes its argument, then driven by events. *)
Inductive reachable : GameState → Prop :=
  | reachable_mount shuffle n startTime endTime outcome :
      (∀ l, shuffle l ≡ₚ l) →
      reachable (mount shuffle n startTime endTime outcome)
  | reachable_step ev st :
      reachable st → reachable (step ev st).

(** *** Properties of piece sets used in the statements *)

(** A piece is where it belongs. *)
Definition inPlace (p : PuzzlePiece) : Prop :=
  isPlaced p = true ∧ currentPosition p = correctPosition p.

(** No two entries of the piece array share a slot [s >= 0]. *)
Definition slotUnique (ps : list PuzzlePiece) : Prop :=
  ∀ i j p q, ps !! i = Some p → ps !! j = Some q →
    0 ≤ currentPosition p → currentPosition p = currentPosition q → i = j.

(** No two entries of the piece array share an id. *)
Definition idsUnique (ps : list PuzzlePiece) : Prop :=
  ∀ i j p q, ps !! i = Some p → ps !! j = Some q → id p = id q → i = j.

(** The completion check emitted a result between [st] and [st']. *)
Definition emitsResult (st st' : GameState) : Prop :=
  length (insertCalls st') = S (length (insertCalls st)).

(** *** What the component renders *)

(** [placedPieces] and [unplacedPieces]; the latter is the content of the
    pieces area. *)
Definition placedPieces (ps : list PuzzlePiece) : list PuzzlePiece :=
  filter (λ piece, isPlaced piece = true) ps.

Definition unplacedPieces (ps : list PuzzlePiece) : list PuzzlePiece :=
  filter (λ piece, isPlaced piece = false) ps.

(** The piece drawn in cell [index] of the board:
    [pieces.find(p => p.currentPosition === index)]. *)
Definition boardCell (index : nat) (ps : list PuzzlePiece) : option PuzzlePiece :=
  snd <$> list_find (λ p, currentPosition p = Z.of_nat index) ps.

(** [isCorrect = piece && piece.correctPosition === index], which turns
    the cell green. *)
Definition isCorrect (index : nat) (ps : list PuzzlePiece) : bool :=
  match boardCell index ps with
  | Some piece => bool_decide (correctPosition piece = Z.of_nat index)
  | None => false
  end.

(** The condition [gameCompleted && completionTime] under which the
    "Puzzle Complete" panel is rendered; a completion time of [0] is
    falsy, like [null]. *)
Definition bannerShown (st : GameState) : bool :=
  gameCompleted st &&
  match completionTime st with
  | Some t => negb (t =? 0)
  | None => false
  end.

(** The events the rendered board can produce for a level of [n] pieces:
    the drop handlers are attached to the cells [0 .. n-1] built by
    [Array.from({ length: level.pieces }, ...)]. *)
Definition boardEvent (n : nat) (ev : Event) : Prop :=
  match ev with
  | DragStart _ => True
  | Drop targetPosition _ _ => 0 ≤ targetPosition < Z.of_nat n
  end.

(** A piece is either in the pieces area and not placed, or placed on a
    cell of the board. *)
Definition placementConsistent (n : nat) (p : PuzzlePiece) : Prop :=
  (currentPosition p = -1 ∧ isPlaced p = false) ∨
  (0 ≤ currentPosition p < Z.of_nat n ∧ isPlaced p = true).

(** *** Sample sessions

    A four-piece session whose shuffle reverses the array, and the same
    session after piece 0 has been dropped on slot 1, piece 1 on slot 0,
    and piece 0 picked up again. *)
Definition sampleSession : GameState :=
  mount reverse 4 0 250 InsertOk.

Definition sampleDragging : GameState :=
  run [DragStart 0; Drop 1 9000 InsertOk;
       DragStart 1; Drop 0 12000 InsertOk;
       DragStart 0] sampleSession.

(** A one-piece session in which the piece has been dropped on its
    cell. *)
Definition sampleOnePiece : GameState :=
  run [DragStart 0; Drop 0 20000 InsertOk] (mount reverse 1 0 250 InsertOk).

(** The level [ha-long-bay] of the catalog, 12 pieces: the session is
    mounted, and then each piece [i] is dragged and dropped on cell [i],
    one piece a second from the tenth second on. *)
Definition solveAll (n : nat) : list Event :=
  i ← seq 0 n;
  [DragStart (Z.of_nat i); Drop (Z.of_nat i) (10000 + 1000 * Z.of_nat i) InsertOk].

Definition sampleHaLongBay : GameState :=
  run (solveAll 12) (mount reverse 12 0 250 InsertOk).

(** A one-piece board with its piece in place, not yet marked completed. *)
Definition sampleSolved : GameState :=
  {| pieces := [mkPiece 0 0 0 true];
     draggedPiece := None;
     gameStartTime := 0;
     gameCompleted := false;
     completionTime := None;
     insertCalls := [];
     toasts := [];
     consoleErrors := 0 |}.

End PuzzleGame.

(** ** The dashboard statistics (component [GameDashboard]) *)

Module GameDashboard.

(** A row of [game_progress] as the query returns it.  The columns the
    code reads may each be [null]; [completed_at] is a timestamp string,
    of which only its truthiness is used. *)
Record ProgressRow : Type := mkRow {
  completed_at : option (list nat);
  time_taken : option Z;
  score : option Z
}.

(** [setUserStats({ puzzles_completed, total_score, best_time })]. *)
Record UserStats : Type := mkStats {
  puzzles_completed : nat;
  total_score : Z;
  best_time : option Z
}.

(** JavaScript truthiness of a nullable string: [null] and the empty
    string are falsy. *)
Definition truthyString (s : option (list nat)) : bool :=
  match s with
  | Some (_ :: _) => true
  | _ => false
  end.

(** JavaScript truthiness of a nullable number: [null] and [0] are
    falsy. *)
Definition truthyNumber (x : option Z) : bool :=
  match x with
  | Some v => negb (v =? 0)
  | None => false
  end.

(** [record.score || 0]. *)
Definition scoreOrZero (record : ProgressRow) : Z :=
  if truthyNumber (score record) then default 0 (score record) else 0.

(** JavaScript numbers are doubles.  The scores are integers, and the sum
    of two integer-valued doubles is their exact sum rounded to 53
    significant bits, ties going to the even significand: below [2^53] in
    magnitude nothing is lost, from there on the low bits are rounded
    away.  (A magnitude of [2^1024], where a double overflows, is beyond
    what is modelled.) *)
Definition roundNumber (z : Z) : Z :=
  let m := Z.abs z in
  if m <? 2 ^ 53 then z
  else
    let e := Z.log2 m - 52 in
    let q := m `div` 2 ^ e in
    let r := m `mod` 2 ^ e in
    let half := 2 ^ (e - 1) in
    let q' :=
      if r <? half then q
      else if half <? r then q + 1
      else if Z.even q then q else q + 1 in
    Z.sgn z * (q' * 2 ^ e).

(** [sum + x]. *)
Definition addNumber (sum x : Z) : Z := roundNumber (sum + x).

(** [Math.min(min, record.time_taken)] where the accumulator starts at
    [Infinity], written [None]; the rows reaching it have passed the
    filter, so [time_taken] is a number there. *)
Definition minStep (min : option Z) (record : ProgressRow) : option Z :=
  match time_taken record with
  | Some t =>
      match min with
      | None => Some t
      | Some m => Some (Z.min m t)
      end
  | None => min
  end.

(** [fetchUserStats]: [data] is [null] when the query fails.  The final
    [bestTime === Infinity ? null : bestTime] maps the untouched
    accumulator to [null]; both are [None] here. *)
Definition fetchUserStats (data : option (list ProgressRow)) : UserStats :=
  match data with
  | Some ((_ :: _) as rows) =>
      let completedPuzzles :=
        length (filter (λ record, truthyString (completed_at record) = true) rows) in
      let totalScore := foldl (λ sum record, addNumber sum (scoreOrZero record)) 0 rows in
      let bestTime :=
        foldl minStep None
          (filter (λ record, truthyNumber (time_taken record) = true) rows) in
      {| puzzles_completed := completedPuzzles;
         total_score := totalScore;
         best_time := bestTime |}
  | _ =>
      {| puzzles_completed := 0%nat;
         total_score := 0;
         best_time := None |}
  end.

(** A Result in the sense of the data model: stored by a completed
    session, with a timestamp, an elapsed time and a score. *)
Definition resultRow (elapsedSeconds sc : Z) : ProgressRow :=
  {| completed_at := Some [2026%nat];
     time_taken := Some elapsedSeconds;
     score := Some sc |}.

(** The sum of the magnitudes of the scores of some rows; while it stays
    below [2^53] every partial sum of the scores is exact. *)
Definition scoreMass (rows : list ProgressRow) : Z :=
  foldr Z.add 0 ((λ record, Z.abs (scoreOrZero record)) <$> rows).

(** The rows stored for a list of Results (elapsed seconds, score). *)
Definition rowsOf (results : list (Z * Z)) : list ProgressRow :=
  (λ r, resultRow r.1 r.2) <$> results.

(** The statistics as the data model describes them, over Results given
    as pairs (elapsed seconds, score): the count, the sum of the scores,
    and the least elapsed time if there is any Result. *)
Definition specStats (results : list (Z * Z)) : UserStats :=
  {| puzzles_completed := length results;
     total_score := foldr Z.add 0 (snd <$> results);
     best_time :=
       match fst <$> results with
       | [] => None
       | t :: ts => Some (foldr Z.min t ts)
       end |}.

End GameDashboard.

(** ** The session gate (page [Index]) *)

Module SessionGate.

(** The signed-in user, of which the page only uses the presence. *)
Definition User : Type := Z.

(** The session object of the identity provider. *)
Record Session : Type := mkSession {
  session_user : User
}.

(** [useState<User | null>(null)] and [useState(true)]. *)
Record GateState : Type := mkGate {
  user : option User;
  loading : bool
}.

Definition initialGate : GateState :=
  {| user := None; loading := true |}.

(** The two callbacks registered by the effect: the continuation of
    [getSession()] and the listener of [onAuthStateChange]. *)
Inductive GateEvent : Type :=
  | SessionResolved (session : option Session)
  | AuthStateChange (session : option Session).

(** [session?.user ?? null]. *)
Definition userOf (session : option Session) : option User :=
  session_user <$> session.

Definition gateStep (ev : GateEvent) (st : GateState) : GateState :=
  match ev with
  | SessionResolved session => {| user := userOf session; loading := false |}
  | AuthStateChange session => {| user := userOf session; loading := loading st |}
  end.

Definition gateRun (evs : list GateEvent) (st : GateState) : GateState :=
  foldl (λ s ev, gateStep ev s) st evs.

(** What the page returns. *)
Inductive Screen : Type :=
  | LoadingScreen
  | AuthScreen
  | DashboardScreen (u : User).

Definition render (st : GateState) : Screen :=
  if loading st then LoadingScreen
  else match user st with
       | None => AuthScreen
       | Some u => DashboardScreen u
       end.

Definition payload (ev : GateEvent) : option Session :=
  match ev with
  | SessionResolved session => session
  | AuthStateChange session => session
  end.

Definition isResolution (ev : GateEvent) : Prop :=
  match ev with
  | SessionResolved _ => True
  | AuthStateChange _ => False
  end.

End SessionGate.

(** ** From a session to the dashboard *)

Module Persistence.

(** The object built in [saveGameResult] as the table stores it:
    [completed_at] is [new Date().toISOString()], [time_taken] and
    [score] are the numbers of the result. *)
Definition storedRow (completedAt : list nat) (r : PuzzleGame.GameResult)
    : GameDashboard.ProgressRow :=
  {| GameDashboard.completed_at := Some completedAt;
     GameDashboard.time_taken := Some (PuzzleGame.time_taken r);
     GameDashboard.score := Some (PuzzleGame.score r) |}.

End Persistence.

(** ** Facts about the puzzle session *)

Module PuzzleGameFacts.
Import PuzzleGame.

(** *** The drop updater, index by index *)

Section DropUpdater.
Variables (dragged targetPosition : Z) (ps : list PuzzlePiece).

Lemma place_evict p : place targetPosition (evict p) = place targetPosition p.
Proof. reflexivity. Qed.

Lemma dropUpdater_length :
  length (dropUpdater dragged targetPosition ps) = length ps.
Proof.
  unfold dropUpdater.
  destruct (list_find _ ps) as [[pieceIndex ?]|]; [|done].
  rewrite length_alter.
  destruct (list_find (λ p, currentPosition p = targetPosition) ps) as [[occupiedIndex ?]|]; simpl; [|done].
  by rewrite length_alter.
Qed.

Lemma dropUpdater_unknown_piece :
  (∀ p, p ∈ ps → id p ≠ dragged) →
  dropUpdater dragged targetPosition ps = ps.
Proof.
  intros Hnone. unfold dropUpdater.
  destruct (list_find (λ p, id p = dragged) ps) as [[pieceIndex x]|] eqn:Hfind; [|done].
  apply list_find_Some in Hfind as (Hx & Hid & _).
  exfalso. eapply Hnone; [|exact Hid]. by eapply list_elem_of_lookup_2.
Qed.

Section Found.
Variables (pieceIndex : nat) (x : PuzzlePiece).
Hypothesis Hdragged : list_find (λ p, id p = dragged) ps = Some (pieceIndex, x).

Lemma dropUpdater_lookup_dragged :
  dropUpdater dragged targetPosition ps !! pieceIndex
  = Some (place targetPosition x).
Proof using Hdragged.
  pose proof Hdragged as (Hx & _ & _)%list_find_Some.
  unfold dropUpdater. rewrite Hdragged. rewrite list_lookup_alter_eq.
  destruct (list_find (λ p, currentPosition p = targetPosition) ps) as [[occupiedIndex y]|] eqn:Hocc; simpl.
  - destruct (decide (occupiedIndex = pieceIndex)) as [->|Hne].
    + rewrite list_lookup_alter_eq, Hx. done.
    + rewrite list_lookup_alter_ne, Hx by done. done.
  - by rewrite Hx.
Qed.

Lemma dropUpdater_lookup_occupant occupiedIndex y :
  list_find (λ p, currentPosition p = targetPosition) ps = Some (occupiedIndex, y) →
  occupiedIndex ≠ pieceIndex →
  dropUpdater dragged targetPosition ps !! occupiedIndex = Some (evict y).
Proof using Hdragged.
  intros Hocc Hne. pose proof Hocc as (Hy & _ & _)%list_find_Some.
  unfold dropUpdater. rewrite Hdragged, Hocc.
  rewrite list_lookup_alter_ne by done.
  by rewrite list_lookup_alter_eq, Hy.
Qed.

Lemma dropUpdater_lookup_other k :
  k ≠ pieceIndex →
  (∀ y, list_find (λ p, currentPosition p = targetPosition) ps ≠ Some (k, y)) →
  dropUpdater dragged targetPosition ps !! k = ps !! k.
Proof using Hdragged.
  intros Hne Hnocc. unfold dropUpdater. rewrite Hdragged.
  rewrite list_lookup_alter_ne by done.
  destruct (list_find (λ p, currentPosition p = targetPosition) ps) as [[occupiedIndex y]|] eqn:Hocc; simpl; [|done].
  rewrite list_lookup_alter_ne; [done|].
  intros ->. by eapply Hnocc.
Qed.

(** Away from the dragged piece, an entry is either untouched or has
    been sent back to the pieces area. *)
Lemma dropUpdater_lookup_cases k q' :
  k ≠ pieceIndex →
  dropUpdater dragged targetPosition ps !! k = Some q' →
  ps !! k = Some q' ∨
  ∃ q, ps !! k = Some q ∧ q' = evict q ∧ currentPosition q = targetPosition.
Proof using Hdragged.
  intros Hne. unfold dropUpdater. rewrite Hdragged.
  rewrite list_lookup_alter_ne by done.
  destruct (list_find (λ p, currentPosition p = targetPosition) ps) as [[occupiedIndex y]|] eqn:Hocc; simpl; [|auto].
  apply list_find_Some in Hocc as (Hy & Hcur & _).
  destruct (decide (occupiedIndex = k)) as [->|Hne'].
  - rewrite list_lookup_alter_eq, Hy. intros [= <-]. right. eauto.
  - rewrite list_lookup_alter_ne by done. auto.
Qed.
End Found.

Lemma dropUpdater_ids :
  id <$> dropUpdater dragged targetPosition ps = id <$> ps.
Proof.
  assert (Halter : ∀ (f : PuzzlePiece → PuzzlePiece) (i : nat) (l : list PuzzlePiece),
             (∀ p, id (f p) = id p) → id <$> alter f i l = id <$> l).
  { intros f i l Hf. apply list_eq. intros k.
    rewrite !list_lookup_fmap. destruct (decide (i = k)) as [->|Hne].
    - rewrite list_lookup_alter_eq. destruct (l !! k); simpl; [|done].
      by rewrite Hf.
    - by rewrite list_lookup_alter_ne. }
  unfold dropUpdater.
  destruct (list_find (λ p, id p = dragged) ps) as [[pieceIndex ?]|]; [|done].
  rewrite Halter by done.
  destruct (list_find (λ p, currentPosition p = targetPosition) ps)
    as [[occupiedIndex ?]|]; simpl; [|done].
  by rewrite Halter.
Qed.
End DropUpdater.

(** *** The sample sessions, evaluated *)

Example sampleSession_pieces :
  pieces sampleSession =
    [mkPiece 3 3 (-1) false; mkPiece 2 2 (-1) false;
     mkPiece 1 1 (-1) false; mkPiece 0 0 (-1) false].
Proof. reflexivity. Qed.

Example sampleDragging_pieces :
  pieces sampleDragging =
    [mkPiece 3 3 (-1) false; mkPiece 2 2 (-1) false;
     mkPiece 1 1 0 true; mkPiece 0 0 1 true]
  ∧ draggedPiece sampleDragging = Some 0.
Proof. split; reflexivity. Qed.

(** Piece 0 moves from slot 1 to slot 0: piece 1 goes back to the pieces
    area and slot 1 stays empty. *)
Example sampleDragging_drop_on_occupied :
  pieces (handleDrop 0 sampleDragging) =
    [mkPiece 3 3 (-1) false; mkPiece 2 2 (-1) false;
     mkPiece 1 1 (-1) false; mkPiece 0 0 0 true].
Proof. reflexivity. Qed.

(** A one-piece session: the result is emitted on mounting, with an
    elapsed time of 0 seconds, and solving the puzzle twenty seconds later
    emits nothing. *)
Example solving_after_mount :
  let solved := run [DragStart 0; Drop 0 20000 InsertOk] (mount reverse 1 0 250 InsertOk) in
  pieces solved = [mkPiece 0 0 0 true] ∧
  insertCalls (mount reverse 1 0 250 InsertOk) = [mkResult 0 1000] ∧
  insertCalls solved = [mkResult 0 1000] ∧
  completionTime solved = Some 0.
Proof. by vm_compute. Qed.

(** *** Finding a piece by id or by slot in a well-formed piece set *)

Lemma find_by_id ps i A :
  idsUnique ps → ps !! i = Some A →
  list_find (λ p, id p = id A) ps = Some (i, A).
Proof.
  intros Hids HA. apply list_find_Some. split_and!; [done..|].
  intros j y Hy Hlt Heq.
  assert (j = i) by (eapply Hids; eauto). lia.
Qed.

Lemma find_by_slot ps k q :
  slotUnique ps → ps !! k = Some q → 0 ≤ currentPosition q →
  list_find (λ p, currentPosition p = currentPosition q) ps = Some (k, q).
Proof.
  intros Hslots Hq Hpos. apply list_find_Some. split_and!; [done..|].
  intros j y Hy Hlt Heq.
  assert (j = k) by (eapply (Hslots j k y q); eauto; lia). lia.
Qed.

(** *** The two invariants are kept by a drop *)

Lemma idsUnique_same_ids ps ps' :
  id <$> ps' = id <$> ps → idsUnique ps → idsUnique ps'.
Proof.
  intros Heq Hids i j p q Hp Hq Hpq.
  assert (∀ k r, ps' !! k = Some r → ∃ r0, ps !! k = Some r0 ∧ id r0 = id r) as Hback.
  { intros k r Hr.
    assert ((id <$> ps') !! k = Some (id r)) as Hk by (by rewrite list_lookup_fmap, Hr).
    rewrite Heq, list_lookup_fmap in Hk.
    destruct (ps !! k) as [r0|]; simplify_eq/=. eauto. }
  destruct (Hback _ _ Hp) as (p0 & Hp0 & Hidp).
  destruct (Hback _ _ Hq) as (q0 & Hq0 & Hidq).
  eapply Hids; eauto. congruence.
Qed.

Lemma idsUnique_dropUpdater dragged targetPosition ps :
  idsUnique ps → idsUnique (dropUpdater dragged targetPosition ps).
Proof. apply idsUnique_same_ids, dropUpdater_ids. Qed.

Lemma slotUnique_dropUpdater dragged targetPosition ps :
  slotUnique ps → slotUnique (dropUpdater dragged targetPosition ps).
Proof.
  intros Hslots.
  destruct (list_find (λ p, id p = dragged) ps) as [[pieceIndex x]|] eqn:Hfind;
    [|by unfold dropUpdater; rewrite Hfind].
  (* an entry other than the dragged one that still sits on a slot was
     already there, and that slot is not the target *)
  assert (∀ k q', k ≠ pieceIndex →
            dropUpdater dragged targetPosition ps !! k = Some q' →
            0 ≤ currentPosition q' →
            ps !! k = Some q' ∧ currentPosition q' ≠ targetPosition) as Hkept.
  { intros k q' Hne Hq' Hpos.
    pose proof Hq' as Hcases.
    eapply dropUpdater_lookup_cases in Hcases; [|done..].
    destruct Hcases as [Hq|(q & Hq & -> & Hcur)]; [|simpl in Hpos; lia].
    split; [done|]. intros Hcur.
    assert (list_find (λ p, currentPosition p = targetPosition) ps = Some (k, q')) as Hocc.
    { rewrite <- Hcur. by apply find_by_slot. }
    erewrite dropUpdater_lookup_occupant in Hq'; [|done..].
    injection Hq' as Hq'. apply (f_equal currentPosition) in Hq'.
    simpl in Hq'. lia. }
  intros i j p q Hp Hq Hpos Heq.
  destruct (decide (i = pieceIndex)) as [->|Hi], (decide (j = pieceIndex)) as [->|Hj];
    [done|..].
  - erewrite dropUpdater_lookup_dragged in Hp by done. simplify_eq/=.
    destruct (Hkept j q) as [_ ?]; [done|done|lia|congruence].
  - erewrite dropUpdater_lookup_dragged in Hq by done. simplify_eq/=.
    destruct (Hkept i p) as [_ ?]; [done|done|lia|congruence].
  - destruct (Hkept i p) as [Hp0 _]; [done..|].
    destruct (Hkept j q) as [Hq0 _]; [done|done|lia|].
    by eapply Hslots.
Qed.

(** *** The completion check *)

Lemma pieceInPlace_spec p : pieceInPlace p = true ↔ inPlace p.
Proof.
  unfold pieceInPlace, inPlace. split.
  - intros [Hplaced Hpos]%andb_prop. split; [done|]. by apply Z.eqb_eq.
  - intros [Hplaced Hpos]. apply andb_true_intro. split; [done|]. by apply Z.eqb_eq.
Qed.

Lemma allPlaced_spec ps : allPlaced ps = true ↔ Forall inPlace ps.
Proof.
  unfold allPlaced. induction ps as [|p ps IH]; simpl.
  - split; [constructor|done].
  - split.
    + intros [Hp Hps]%andb_prop. constructor.
      * exact (proj1 (pieceInPlace_spec p) Hp).
      * exact (proj1 IH Hps).
    + intros [Hp Hps]%Forall_cons_1. apply andb_true_intro. split.
      * exact (proj2 (pieceInPlace_spec p) Hp).
      * exact (proj2 IH Hps).
Qed.

Lemma checkGameCompletion_fired endTime outcome st :
  allPlaced (pieces st) = true → gameCompleted st = false →
  let timeTaken := (endTime - gameStartTime st) `div` 1000 in
  let st' := checkGameCompletion endTime outcome st in
  pieces st' = pieces st ∧
  draggedPiece st' = draggedPiece st ∧
  gameCompleted st' = true ∧
  completionTime st' = Some timeTaken ∧
  insertCalls st' =
    insertCalls st ++ [mkResult timeTaken (Z.max (1000 - timeTaken) 100)].
Proof.
  intros Hall Hnot. unfold checkGameCompletion. rewrite Hall, Hnot. simpl.
  by destruct outcome.
Qed.

Lemma checkGameCompletion_idle endTime outcome st :
  allPlaced (pieces st) = false ∨ gameCompleted st = true →
  checkGameCompletion endTime outcome st = st.
Proof.
  intros [H|H]; unfold checkGameCompletion; rewrite H; [done|].
  by rewrite andb_false_r.
Qed.

Lemma checkGameCompletion_pieces endTime outcome st :
  pieces (checkGameCompletion endTime outcome st) = pieces st.
Proof.
  unfold checkGameCompletion.
  destruct (allPlaced (pieces st) && negb (gameCompleted st)); [|done].
  by destruct outcome.
Qed.

(** *** Steps keep the invariants and the completed flag *)

Lemma step_pieces ev st :
  pieces (step ev st) = pieces st ∨
  ∃ dragged targetPosition,
    pieces (step ev st) = dropUpdater dragged targetPosition (pieces st).
Proof.
  destruct ev as [pieceId|targetPosition endTime outcome]; simpl; [by left|].
  unfold handleDrop. destruct (draggedPiece st) as [dragged|]; [|by left].
  right. exists dragged, targetPosition. by rewrite checkGameCompletion_pieces.
Qed.

Lemma step_slotUnique ev st :
  slotUnique (pieces st) → slotUnique (pieces (step ev st)).
Proof.
  intros H. destruct (step_pieces ev st) as [->|(d & t & ->)]; [done|].
  by apply slotUnique_dropUpdater.
Qed.

Lemma step_idsUnique ev st :
  idsUnique (pieces st) → idsUnique (pieces (step ev st)).
Proof.
  intros H. destruct (step_pieces ev st) as [->|(d & t & ->)]; [done|].
  by apply idsUnique_dropUpdater.
Qed.

Lemma step_completed ev st :
  gameCompleted st = true →
  gameCompleted (step ev st) = true ∧
  completionTime (step ev st) = completionTime st ∧
  insertCalls (step ev st) = insertCalls st ∧
  toasts (step ev st) = toasts st.
Proof.
  intros Hdone.
  destruct ev as [pieceId|targetPosition endTime outcome]; simpl; [done|].
  unfold handleDrop. destruct (draggedPiece st) as [dragged|]; [|done].
  rewrite checkGameCompletion_idle by (by right). done.
Qed.

Lemma run_completed evs st :
  gameCompleted st = true →
  gameCompleted (run evs st) = true ∧
  completionTime (run evs st) = completionTime st ∧
  insertCalls (run evs st) = insertCalls st ∧
  toasts (run evs st) = toasts st.
Proof.
  revert st. induction evs as [|ev evs IH]; intros st Hdone; [done|].
  destruct (step_completed ev st Hdone) as (Hc & Ht & Hi & Ho).
  destruct (IH (step ev st) Hc) as (? & ? & ? & ?).
  unfold run in *. simpl. split_and!; congruence.
Qed.

(** A step emits at most one result, and only by completing. *)
Lemma step_emits ev st :
  (insertCalls (step ev st) = insertCalls st ∧
   gameCompleted (step ev st) = gameCompleted st) ∨
  (gameCompleted st = false ∧ gameCompleted (step ev st) = true ∧
   ∃ row, insertCalls (step ev st) = insertCalls st ++ [row]).
Proof.
  destruct ev as [pieceId|targetPosition endTime outcome]; simpl; [by left|].
  unfold handleDrop. destruct (draggedPiece st) as [dragged|]; [|by left].
  set (st1 := mkState _ _ _ _ _ _ _ _).
  destruct (allPlaced (pieces st1)) eqn:Hall, (gameCompleted st1) eqn:Hdone.
  - left. rewrite checkGameCompletion_idle by (by right). done.
  - right.
    destruct (checkGameCompletion_fired endTime outcome st1 Hall Hdone)
      as (_ & _ & Hc & _ & Hi).
    split_and!; [done|done|]. eexists. exact Hi.
  - left. rewrite checkGameCompletion_idle by (by left). done.
  - left. rewrite checkGameCompletion_idle by (by left). done.
Qed.

(** *** Initialisation and mounting *)

Lemma initialPieces_length n : length (initialPieces n) = n.
Proof. unfold initialPieces. by rewrite length_fmap, length_seq. Qed.

Lemma initialPieces_staged n :
  Forall (λ p, currentPosition p = -1 ∧ isPlaced p = false) (initialPieces n).
Proof.
  unfold initialPieces. apply Forall_fmap, Forall_forall. by intros i _.
Qed.

Lemma initialPieces_correct n :
  correctPosition <$> initialPieces n = Z.of_nat <$> seq 0 n.
Proof. unfold initialPieces. rewrite <- list_fmap_compose. done. Qed.

Lemma initialPieces_ids n : id <$> initialPieces n = Z.of_nat <$> seq 0 n.
Proof. unfold initialPieces. rewrite <- list_fmap_compose. done. Qed.

Lemma staged_slotUnique ps :
  Forall (λ p, currentPosition p = -1 ∧ isPlaced p = false) ps → slotUnique ps.
Proof.
  intros Hstaged i j p q Hp _ Hpos _.
  eapply Forall_lookup_1 in Hstaged as [Hcur _]; [|exact Hp]. lia.
Qed.

Lemma NoDup_idsUnique ps : NoDup (id <$> ps) → idsUnique ps.
Proof.
  intros Hnd i j p q Hp Hq Hpq.
  eapply (NoDup_lookup _ i j (id p)); [exact Hnd|..].
  - by rewrite list_lookup_fmap, Hp.
  - by rewrite list_lookup_fmap, Hq, Hpq.
Qed.

Section Shuffle.
Variable shuffle : list PuzzlePiece → list PuzzlePiece.
Hypothesis shuffle_permutes : ∀ l, shuffle l ≡ₚ l.

Lemma initializePuzzle_staged n :
  Forall (λ p, currentPosition p = -1 ∧ isPlaced p = false)
    (initializePuzzle shuffle n).
Proof using shuffle_permutes.
  unfold initializePuzzle. rewrite shuffle_permutes. apply initialPieces_staged.
Qed.

Lemma initializePuzzle_slotUnique n : slotUnique (initializePuzzle shuffle n).
Proof using shuffle_permutes. apply staged_slotUnique, initializePuzzle_staged. Qed.

Lemma initializePuzzle_idsUnique n : idsUnique (initializePuzzle shuffle n).
Proof using shuffle_permutes.
  apply NoDup_idsUnique. unfold initializePuzzle.
  rewrite shuffle_permutes, initialPieces_ids.
  apply NoDup_fmap_2; [apply _|apply NoDup_seq].
Qed.
End Shuffle.

(** The check of the first render always fires, so the check of the
    second render never does. *)
Lemma mount_unfold shuffle n startTime endTime outcome :
  let timeTaken := (endTime - startTime) `div` 1000 in
  let st := mount shuffle n startTime endTime outcome in
  pieces st = initializePuzzle shuffle n ∧
  draggedPiece st = None ∧
  gameCompleted st = true ∧
  completionTime st = Some timeTaken ∧
  insertCalls st = [mkResult timeTaken (Z.max (1000 - timeTaken) 100)].
Proof.
  unfold mount.
  destruct (checkGameCompletion_fired endTime outcome (initialState startTime))
    as (Hp & Hd & Hc & Ht & Hi); [done..|].
  rewrite checkGameCompletion_idle by (right; exact Hc).
  simpl in *. by rewrite Hd, Hc, Ht, Hi.
Qed.

Lemma reachable_run evs st : reachable st → reachable (run evs st).
Proof.
  revert st. induction evs as [|ev evs IH]; intros st Hst; [done|].
  apply (IH (step ev st)). by constructor.
Qed.

Lemma reachable_wellformed st :
  reachable st → idsUnique (pieces st) ∧ slotUnique (pieces st).
Proof.
  induction 1 as [shuffle n startTime endTime outcome Hperm|ev st _ [IHids IHslots]].
  - destruct (mount_unfold shuffle n startTime endTime outcome) as (-> & _).
    split; [by apply initializePuzzle_idsUnique|by apply initializePuzzle_slotUnique].
  - split; [by apply step_idsUnique|by apply step_slotUnique].
Qed.

Lemma reachable_completed st :
  reachable st → gameCompleted st = true ∧ length (insertCalls st) = 1%nat.
Proof.
  induction 1 as [shuffle n startTime endTime outcome Hperm|ev st _ [IHc IHi]].
  - destruct (mount_unfold shuffle n startTime endTime outcome)
      as (_ & _ & Hc & _ & Hi).
    by rewrite Hi.
  - destruct (step_completed ev st IHc) as (Hc & _ & Hi & _).
    by rewrite Hi.
Qed.

(** [checkGameCompletion] hands to the data store what [saveGameResult]
    does after the completion has been committed; the congratulation is
    raised between the call and its settling. *)
Lemma checkGameCompletion_saves endTime outcome st :
  allPlaced (pieces st) = true → gameCompleted st = false →
  let timeTaken := (endTime - gameStartTime st) `div` 1000 in
  let saved := saveGameResult timeTaken outcome (commitCompletion timeTaken st) in
  insertCalls (checkGameCompletion endTime outcome st) = insertCalls saved ∧
  consoleErrors (checkGameCompletion endTime outcome st) = consoleErrors saved.
Proof.
  intros Hall Hnot. unfold checkGameCompletion. rewrite Hall, Hnot. simpl.
  by destruct outcome.
Qed.

(** *** Initialisation (C5) *)

(** C5: for every piece count [n] (perfect squares included, the property
    does not depend on it), right after initialisation the piece set is
    the shuffled array: it has exactly [n] pieces, every piece is in the
    pieces area ([currentPosition = -1]) and not placed, and the
    [correctPosition] values are a permutation of [0 .. n-1], the shuffle
    reordering the pieces without changing them. *)
Theorem initialization_spec shuffle n startTime endTime outcome :
  (∀ l, shuffle l ≡ₚ l) →
  let ps := pieces (mount shuffle n startTime endTime outcome) in
  length ps = n ∧
  Forall (λ p, currentPosition p = -1 ∧ isPlaced p = false) ps ∧
  correctPosition <$> ps ≡ₚ Z.of_nat <$> seq 0 n ∧
  ps ≡ₚ initialPieces n.
Proof.
  intros Hperm ps.
  assert (ps = initializePuzzle shuffle n) as ->
    by apply (mount_unfold shuffle n startTime endTime outcome).
  split_and!.
  - unfold initializePuzzle. by rewrite Hperm, initialPieces_length.
  - by apply initializePuzzle_staged.
  - unfold initializePuzzle. by rewrite Hperm, initialPieces_correct.
  - apply Hperm.
Qed.

Lemma initialization_spec_witness :
  (∀ l : list PuzzlePiece, reverse l ≡ₚ l) ∧
  length (pieces sampleSession) = 4%nat ∧
  correctPosition <$> pieces sampleSession ≡ₚ [0; 1; 2; 3].
Proof.
  split; [apply reverse_Permutation|].
  destruct (initialization_spec reverse 4 0 250 InsertOk reverse_Permutation)
    as (Hlen & _ & Hcorrect & _).
  split; [exact Hlen|exact Hcorrect].
Defined.

(** *** Slot uniqueness (C4) *)

(** C4: no two pieces share a slot [s >= 0].  Initialisation establishes
    this, [handleDragStart] and [handleDrop] keep it (for any target), and
    so it holds in every state a session can reach. *)
Theorem slot_uniqueness_invariant :
  (∀ shuffle n, (∀ l, shuffle l ≡ₚ l) → slotUnique (initializePuzzle shuffle n)) ∧
  (∀ pieceId st, slotUnique (pieces st) →
     slotUnique (pieces (handleDragStart pieceId st))) ∧
  (∀ targetPosition st, slotUnique (pieces st) →
     slotUnique (pieces (handleDrop targetPosition st))) ∧
  (∀ st, reachable st → slotUnique (pieces st)).
Proof.
  split_and!.
  - intros shuffle n Hperm. by apply initializePuzzle_slotUnique.
  - intros pieceId st H. exact H.
  - intros targetPosition st H. unfold handleDrop.
    destruct (draggedPiece st); [|done]. by apply slotUnique_dropUpdater.
  - intros st Hst. by apply reachable_wellformed.
Qed.

Lemma slot_uniqueness_invariant_witness :
  slotUnique (pieces (handleDrop 0 sampleDragging)).
Proof.
  destruct slot_uniqueness_invariant as (_ & _ & Hdrop & Hreach).
  apply Hdrop, Hreach, reachable_run, reachable_mount, reverse_Permutation.
Defined.

(** *** Drops that change nothing (C7) *)

(** C7: [handleDrop] is defined for every target and every state.  When
    no piece is being dragged the state is returned as it is; when the
    dragged id belongs to no piece, the piece set is unchanged (nobody is
    evicted), only the drag marker is cleared. *)
Theorem handleDrop_defensive targetPosition st :
  (draggedPiece st = None → handleDrop targetPosition st = st) ∧
  (∀ dragged, draggedPiece st = Some dragged →
     (∀ p, p ∈ pieces st → id p ≠ dragged) →
     pieces (handleDrop targetPosition st) = pieces st ∧
     draggedPiece (handleDrop targetPosition st) = None ∧
     gameCompleted (handleDrop targetPosition st) = gameCompleted st ∧
     completionTime (handleDrop targetPosition st) = completionTime st ∧
     insertCalls (handleDrop targetPosition st) = insertCalls st).
Proof.
  unfold handleDrop. split.
  - by intros ->.
  - intros dragged -> Hnone. simpl. by rewrite dropUpdater_unknown_piece.
Qed.

Lemma handleDrop_defensive_witness :
  handleDrop 2 sampleSession = sampleSession ∧
  pieces (handleDrop 2 (handleDragStart 7 sampleSession)) = pieces sampleSession.
Proof.
  split.
  - by apply (handleDrop_defensive 2 sampleSession).
  - apply (handleDrop_defensive 2 (handleDragStart 7 sampleSession)) with 7; [done|].
    apply (proj1 (Forall_forall (λ p, id p ≠ 7) _)).
    vm_compute. repeat constructor; discriminate.
Defined.

(** *** Dropping onto an occupied slot (C3) *)

(** C3: in a piece set with distinct ids and at most one piece per slot,
    let piece [A] (at index [i]) be the dragged piece and let another piece
    [B] (at index [j]) occupy the target slot.  After the drop [A] sits on
    the target and is placed, [B] is back in the pieces area and not
    placed, every other piece is as it was, and no piece is on the slot
    [A] came from: the move evicts, it does not swap. *)
Theorem drop_onto_occupied st targetPosition i j A B :
  idsUnique (pieces st) → slotUnique (pieces st) →
  pieces st !! i = Some A → pieces st !! j = Some B → i ≠ j →
  draggedPiece st = Some (id A) →
  currentPosition B = targetPosition → 0 ≤ targetPosition →
  let ps' := pieces (handleDrop targetPosition st) in
  ps' !! i = Some (mkPiece (id A) (correctPosition A) targetPosition true) ∧
  ps' !! j = Some (mkPiece (id B) (correctPosition B) (-1) false) ∧
  (∀ k, k ≠ i → k ≠ j → ps' !! k = pieces st !! k) ∧
  length ps' = length (pieces st) ∧
  (0 ≤ currentPosition A →
   ∀ k q, ps' !! k = Some q → currentPosition q ≠ currentPosition A).
Proof.
  intros Hids Hslots HA HB Hij Hdrag HcurB Htarget ps'.
  assert (list_find (λ p, id p = id A) (pieces st) = Some (i, A)) as HfindA
    by by apply find_by_id.
  assert (list_find (λ p, currentPosition p = targetPosition) (pieces st)
          = Some (j, B)) as HfindB
    by (rewrite <- HcurB; apply find_by_slot; [done..|lia]).
  assert (ps' = dropUpdater (id A) targetPosition (pieces st)) as Hps'
    by (unfold ps', handleDrop; by rewrite Hdrag).
  assert (ps' !! i = Some (place targetPosition A)) as Hi
    by (rewrite Hps'; by eapply dropUpdater_lookup_dragged).
  assert (ps' !! j = Some (evict B)) as Hj
    by (rewrite Hps'; eapply dropUpdater_lookup_occupant; eauto).
  assert (∀ k, k ≠ i → k ≠ j → ps' !! k = pieces st !! k) as Hrest.
  { intros k Hki Hkj. rewrite Hps'.
    eapply dropUpdater_lookup_other; [done..|].
    intros y Hy. rewrite HfindB in Hy. congruence. }
  split_and!; [done..| |].
  - rewrite Hps'. apply dropUpdater_length.
  - intros HposA k q Hq Hcur.
    assert (currentPosition A ≠ targetPosition) as Hsrc.
    { intros Heq. apply Hij. eapply (Hslots i j A B); eauto. congruence. }
    destruct (decide (k = i)) as [->|Hki].
    { rewrite Hi in Hq. simplify_eq/=. }
    destruct (decide (k = j)) as [->|Hkj].
    { rewrite Hj in Hq. simplify_eq/=. lia. }
    rewrite Hrest in Hq by done.
    apply Hki. eapply (Hslots k i q A); eauto; lia.
Qed.

Lemma drop_onto_occupied_witness :
  pieces (handleDrop 0 sampleDragging) !! 3%nat = Some (mkPiece 0 0 0 true) ∧
  pieces (handleDrop 0 sampleDragging) !! 2%nat = Some (mkPiece 1 1 (-1) false).
Proof.
  assert (reachable sampleDragging) as Hreach
    by apply reachable_run, reachable_mount, reverse_Permutation.
  destruct (reachable_wellformed _ Hreach) as [Hids Hslots].
  destruct (drop_onto_occupied sampleDragging 0 3 2
              (mkPiece 0 0 1 true) (mkPiece 1 1 0 true))
    as (HA & HB & _); [done|done|reflexivity|reflexivity|lia|reflexivity|reflexivity|lia|].
  split; [exact HA|exact HB].
Defined.

(** *** Dropping a piece onto its own slot (C10) *)

(** C10: when the dragged piece [A] already sits on the target slot, the
    occupant found by the eviction search is [A] itself; it is evicted and
    then placed again, so that it ends on the target slot, placed, and
    every other piece is unchanged. *)
Theorem drop_onto_own_slot st targetPosition i A :
  idsUnique (pieces st) → slotUnique (pieces st) →
  pieces st !! i = Some A →
  draggedPiece st = Some (id A) →
  currentPosition A = targetPosition → 0 ≤ targetPosition →
  let ps' := pieces (handleDrop targetPosition st) in
  list_find (λ p, currentPosition p = targetPosition) (pieces st) = Some (i, A) ∧
  ps' = alter (place targetPosition) i (alter evict i (pieces st)) ∧
  ps' !! i = Some (mkPiece (id A) (correctPosition A) targetPosition true) ∧
  (∀ k, k ≠ i → ps' !! k = pieces st !! k).
Proof.
  intros Hids Hslots HA Hdrag Hcur Htarget ps'.
  assert (list_find (λ p, id p = id A) (pieces st) = Some (i, A)) as HfindA
    by by apply find_by_id.
  assert (list_find (λ p, currentPosition p = targetPosition) (pieces st)
          = Some (i, A)) as Hocc
    by (rewrite <- Hcur; apply find_by_slot; [done..|lia]).
  assert (ps' = alter (place targetPosition) i (alter evict i (pieces st))) as Hps'.
  { unfold ps', handleDrop. rewrite Hdrag. simpl.
    unfold dropUpdater. by rewrite HfindA, Hocc. }
  split_and!; [done|done|..].
  - rewrite Hps', !list_lookup_alter_eq, HA. done.
  - intros k Hk. rewrite Hps', !list_lookup_alter_ne by done. done.
Qed.

Lemma drop_onto_own_slot_witness :
  pieces (handleDrop 1 sampleDragging) !! 3%nat = Some (mkPiece 0 0 1 true) ∧
  pieces (handleDrop 1 sampleDragging) !! 2%nat = Some (mkPiece 1 1 0 true).
Proof.
  assert (reachable sampleDragging) as Hreach
    by apply reachable_run, reachable_mount, reverse_Permutation.
  destruct (reachable_wellformed _ Hreach) as [Hids Hslots].
  destruct (drop_onto_own_slot sampleDragging 1 3 (mkPiece 0 0 1 true))
    as (_ & _ & HA & Hrest); [done|done|reflexivity|reflexivity|reflexivity|lia|].
  split; [exact HA|]. rewrite Hrest by lia. reflexivity.
Defined.

(** *** Completion and the solved board (C1) *)

(** C1 as the code has it.  On mounting a level with at least one piece
    the completion fires although no piece is placed: the session is
    marked completed and its one result is emitted while every piece is
    still in the pieces area.  From then on, in every state the session
    reaches, the completion check emits nothing, whatever the pieces are;
    in particular it stays silent on a solved board.  On the 12-piece
    level of the catalog, after each piece has been dropped on its own
    cell, all pieces are in place and the only result and the only
    congratulation are those of the mounting, with a time of 0 seconds. *)
Theorem completion_misses_solved_board :
  (∀ shuffle n startTime endTime outcome,
     (∀ l, shuffle l ≡ₚ l) → (0 < n)%nat →
     let st := mount shuffle n startTime endTime outcome in
     allPlaced (pieces st) = false ∧
     Forall (λ p, isPlaced p = false) (pieces st) ∧
     gameCompleted st = true ∧
     length (insertCalls st) = 1%nat) ∧
  (∀ st, reachable st →
     gameCompleted st = true ∧
     length (insertCalls st) = 1%nat ∧
     ∀ endTime outcome,
       ¬ emitsResult st (checkGameCompletion endTime outcome st) ∧
       checkGameCompletion endTime outcome st = st) ∧
  (allPlaced (pieces sampleHaLongBay) = true ∧
   length (pieces sampleHaLongBay) = 12%nat ∧
   gameCompleted (mount reverse 12 0 250 InsertOk) = true ∧
   insertCalls (mount reverse 12 0 250 InsertOk) = [mkResult 0 1000] ∧
   insertCalls sampleHaLongBay = [mkResult 0 1000] ∧
   toasts sampleHaLongBay = [ToastCongratulations 0] ∧
   completionTime sampleHaLongBay = Some 0).
Proof.
  split; [|split].
  - intros shuffle n startTime endTime outcome Hperm Hn st.
    destruct (mount_unfold shuffle n startTime endTime outcome)
      as (Hp & _ & Hc & _ & Hi).
    fold st in Hp, Hc, Hi.
    pose proof (initializePuzzle_staged shuffle Hperm n) as Hstaged.
    rewrite <- Hp in Hstaged.
    assert (length (pieces st) = n) as Hlen.
    { rewrite Hp. unfold initializePuzzle. by rewrite Hperm, initialPieces_length. }
    split_and!; [|by eapply Forall_impl; [exact Hstaged|]; intros p [_ ?]|done|by rewrite Hi].
    destruct (pieces st) as [|p ps]; [simpl in Hlen; lia|].
    apply Forall_cons_1 in Hstaged as [[_ Hp0] _].
    simpl. unfold pieceInPlace. by rewrite Hp0.
  - intros st Hst. destruct (reachable_completed st Hst) as [Hc Hi].
    split_and!; [done|done|]. intros endTime outcome.
    rewrite checkGameCompletion_idle by (by right).
    split; [|done]. unfold emitsResult. lia.
  - by vm_compute.
Qed.

(** *** The persisted score (C2) *)

(** C2: when the completion check fires [elapsedSeconds] after the start
    of the session (the clock not running backwards), the row handed to
    the data store carries that time and the score
    [max (1000 - elapsedSeconds) 100]: 1000 for 0 seconds, 100 for 900
    seconds and for every longer time. *)
Theorem persisted_score endTime outcome st :
  Forall inPlace (pieces st) → gameCompleted st = false →
  gameStartTime st ≤ endTime →
  let elapsedSeconds := (endTime - gameStartTime st) `div` 1000 in
  0 ≤ elapsedSeconds ∧
  ∃ row,
    insertCalls (checkGameCompletion endTime outcome st) = insertCalls st ++ [row] ∧
    time_taken row = elapsedSeconds ∧
    score row = Z.max (1000 - elapsedSeconds) 100 ∧
    (elapsedSeconds = 0 → score row = 1000) ∧
    (elapsedSeconds = 900 → score row = 100) ∧
    (900 ≤ elapsedSeconds → score row = 100).
Proof.
  intros Hall Hnot Hclock elapsedSeconds.
  apply allPlaced_spec in Hall.
  destruct (checkGameCompletion_fired endTime outcome st Hall Hnot)
    as (_ & _ & _ & _ & Hi).
  split; [apply Z.div_pos; lia|].
  eexists. split; [exact Hi|]. simpl. fold elapsedSeconds.
  split_and!; [done|done|lia..].
Qed.

Lemma persisted_score_witness :
  ∃ row,
    insertCalls (checkGameCompletion 2000000 InsertOk sampleSolved) = [row] ∧
    time_taken row = 2000 ∧ score row = 100.
Proof.
  destruct (persisted_score 2000000 InsertOk sampleSolved)
    as (_ & row & Hi & Ht & Hs & _); [repeat constructor|reflexivity|simpl; lia|].
  exists row. split; [exact Hi|]. split; [exact Ht|]. rewrite Hs. reflexivity.
Defined.

(** *** The empty piece set (C9) *)

(** C9: on an empty piece set the completion predicate holds vacuously,
    so a check made while the session is not completed fires.  This is
    what happens on mounting: the check of the first render sees the
    initial empty array, marks the session completed and emits a result;
    whatever the user does afterwards, the session stays completed and no
    other result is emitted. *)
Theorem empty_piece_set_completes :
  (∀ endTime outcome st,
     pieces st = [] → gameCompleted st = false →
     emitsResult st (checkGameCompletion endTime outcome st) ∧
     gameCompleted (checkGameCompletion endTime outcome st) = true) ∧
  (∀ shuffle n startTime endTime outcome evs,
     let timeTaken := (endTime - startTime) `div` 1000 in
     let st := mount shuffle n startTime endTime outcome in
     gameCompleted st = true ∧
     completionTime st = Some timeTaken ∧
     insertCalls st = [mkResult timeTaken (Z.max (1000 - timeTaken) 100)] ∧
     gameCompleted (run evs st) = true ∧
     insertCalls (run evs st) = insertCalls st).
Proof.
  split.
  - intros endTime outcome st Hempty Hnot.
    assert (allPlaced (pieces st) = true) as Hall by by rewrite Hempty.
    destruct (checkGameCompletion_fired endTime outcome st Hall Hnot)
      as (_ & _ & Hc & _ & Hi).
    split; [|done]. unfold emitsResult. rewrite Hi, length_app. simpl. lia.
  - intros shuffle n startTime endTime outcome evs timeTaken st.
    destruct (mount_unfold shuffle n startTime endTime outcome)
      as (_ & _ & Hc & Ht & Hi).
    destruct (run_completed evs st Hc) as (Hc' & _ & Hi' & _).
    done.
Qed.

Lemma empty_piece_set_completes_witness :
  gameCompleted sampleSession = true ∧
  insertCalls sampleSession = [mkResult 0 1000] ∧
  insertCalls sampleDragging = insertCalls sampleSession.
Proof.
  destruct empty_piece_set_completes as [_ Hmount].
  destruct (Hmount reverse 4%nat 0 250 InsertOk
              [DragStart 0; Drop 1 9000 InsertOk;
               DragStart 1; Drop 0 12000 InsertOk; DragStart 0])
    as (Hc & _ & Hi & _ & Hafter).
  split; [exact Hc|]. split; [exact Hi|exact Hafter].
Defined.

(** *** A failing insert (C8) *)

(** Whatever way the insert settles, the session state committed by the
    completion check is the same, and the insert is called once. *)
Lemma insert_outcome_leaves_session endTime outcome st :
  let st' := checkGameCompletion endTime outcome st in
  let reference := checkGameCompletion endTime InsertOk st in
  pieces st' = pieces reference ∧
  draggedPiece st' = draggedPiece reference ∧
  gameCompleted st' = gameCompleted reference ∧
  completionTime st' = completionTime reference ∧
  insertCalls st' = insertCalls reference.
Proof.
  unfold checkGameCompletion.
  destruct (allPlaced (pieces st) && negb (gameCompleted st)); [|done].
  by destruct outcome.
Qed.

(** An insert that resolves with an error raises the failure toast. *)
Lemma insert_error_notified endTime st :
  allPlaced (pieces st) = true → gameCompleted st = false →
  toasts (checkGameCompletion endTime InsertError st) =
    toasts st ++ [ToastCongratulations ((endTime - gameStartTime st) `div` 1000);
                  ToastSaveFailed].
Proof.
  intros Hall Hnot. unfold checkGameCompletion. rewrite Hall, Hnot. simpl.
  by rewrite <- app_assoc.
Qed.

(** An insert whose promise rejects is logged and raises no toast. *)
Lemma insert_rejection_silent endTime st :
  allPlaced (pieces st) = true → gameCompleted st = false →
  toasts (checkGameCompletion endTime InsertThrows st) =
    toasts st ++ [ToastCongratulations ((endTime - gameStartTime st) `div` 1000)] ∧
  consoleErrors (checkGameCompletion endTime InsertThrows st) = S (consoleErrors st).
Proof.
  intros Hall Hnot. unfold checkGameCompletion. by rewrite Hall, Hnot.
Qed.


End PuzzleGameFacts.

(** ** Facts about the dashboard statistics *)

Module GameDashboardFacts.
Import GameDashboard.

Lemma fetchUserStats_no_history :
  fetchUserStats None = mkStats 0 0 None ∧
  fetchUserStats (Some []) = mkStats 0 0 None.
Proof. done. Qed.

Lemma scoreOrZero_result t sc : scoreOrZero (resultRow t sc) = sc.
Proof.
  unfold scoreOrZero, truthyNumber, default. simpl.
  destruct (Z.eqb_spec sc 0); simpl; congruence.
Qed.

(** The rounding of sums, evaluated: past [2^53] odd sums go to the
    neighbour with the even significand, and the total of the same three
    scores depends on the order in which they are added. *)
Example addNumber_rounds :
  addNumber (2 ^ 53) 1 = 2 ^ 53 ∧
  addNumber (2 ^ 53) 2 = 2 ^ 53 + 2 ∧
  addNumber (2 ^ 53 + 2) 1 = 2 ^ 53 + 4 ∧
  addNumber (2 ^ 56) 1000 = 2 ^ 56 + 992 ∧
  addNumber (- 2 ^ 53) (-1) = - 2 ^ 53 ∧
  total_score (fetchUserStats
     (Some [resultRow 60 (2 ^ 53); resultRow 60 1; resultRow 60 1]))
    = 9007199254740992 ∧
  total_score (fetchUserStats
     (Some [resultRow 60 1; resultRow 60 1; resultRow 60 (2 ^ 53)]))
    = 9007199254740994.
Proof. by vm_compute. Qed.

Lemma roundNumber_exact z : Z.abs z < 2 ^ 53 → roundNumber z = z.
Proof.
  intros Hsafe. unfold roundNumber.
  by destruct (Z.ltb_spec (Z.abs z) (2 ^ 53)); [|lia].
Qed.

Lemma scoreMass_cons r rows :
  scoreMass (r :: rows) = Z.abs (scoreOrZero r) + scoreMass rows.
Proof. done. Qed.

Lemma scoreMass_nonneg rows : 0 ≤ scoreMass rows.
Proof.
  induction rows as [|r rows IH]; [done|]. rewrite scoreMass_cons. lia.
Qed.

(** While the magnitudes of the scores add up to less than [2^53], the
    running sum of the code is the exact sum. *)
Lemma foldl_addNumber_exact rows acc :
  Z.abs acc + scoreMass rows < 2 ^ 53 →
  foldl (λ sum record, addNumber sum (scoreOrZero record)) acc rows
  = acc + foldr Z.add 0 (scoreOrZero <$> rows).
Proof.
  revert acc. induction rows as [|r rows IH]; intros acc Hsafe; [simpl; lia|].
  rewrite scoreMass_cons in Hsafe.
  pose proof (scoreMass_nonneg rows) as Hmass.
  change (foldl (λ sum record, addNumber sum (scoreOrZero record))
            (addNumber acc (scoreOrZero r)) rows
          = acc + (scoreOrZero r + foldr Z.add 0 (scoreOrZero <$> rows))).
  unfold addNumber. rewrite roundNumber_exact by lia.
  rewrite IH by lia. lia.
Qed.

Lemma scores_rowsOf results :
  scoreOrZero <$> rowsOf results = snd <$> results.
Proof.
  induction results as [|[t sc] results IH]; [done|].
  change (scoreOrZero (resultRow t sc) :: (scoreOrZero <$> rowsOf results)
          = sc :: (snd <$> results)).
  by rewrite IH, scoreOrZero_result.
Qed.

Lemma foldl_scores results :
  scoreMass (rowsOf results) < 2 ^ 53 →
  foldl (λ sum record, addNumber sum (scoreOrZero record)) 0 (rowsOf results)
  = foldr Z.add 0 (snd <$> results).
Proof.
  intros Hsafe. rewrite foldl_addNumber_exact by (simpl; lia).
  by rewrite scores_rowsOf.
Qed.

Lemma foldr_min_swap m t ts :
  foldr Z.min (Z.min m t) ts = Z.min t (foldr Z.min m ts).
Proof. induction ts as [|u ts IH]; simpl; lia. Qed.

Lemma foldl_minStep results m :
  foldl minStep (Some m) (rowsOf results) = Some (foldr Z.min m (fst <$> results)).
Proof.
  revert m. induction results as [|[t sc] results IH]; intros m; [done|].
  change (foldl minStep (Some (Z.min m t)) (rowsOf results)
          = Some (Z.min t (foldr Z.min m (fst <$> results)))).
  by rewrite IH, foldr_min_swap.
Qed.

(** Away from a zero elapsed time, and with scores whose magnitudes add
    up to less than [2^53], [fetchUserStats] computes the statistics of
    the data model. *)
Lemma fetchUserStats_nonzero_times results :
  Forall (λ r, r.1 ≠ 0) results →
  scoreMass (rowsOf results) < 2 ^ 53 →
  fetchUserStats (Some (rowsOf results)) = specStats results.
Proof.
  intros Hnz Hsafe. destruct results as [|[t sc] results]; [done|].
  assert (∀ l, Forall (λ r, r.1 ≠ 0) l →
            filter (λ record, truthyNumber (time_taken record) = true) (rowsOf l)
            = rowsOf l) as Htimes.
  { induction 1 as [|[u v] l Hu _ IH]; [done|]. simpl in *.
    rewrite filter_cons_True by (simpl; by destruct (Z.eqb_spec u 0)).
    by rewrite IH. }
  assert (∀ l, filter (λ record, truthyString (completed_at record) = true) (rowsOf l)
               = rowsOf l) as Hdone.
  { induction l as [|[u v] l IH]; [done|]. simpl.
    rewrite filter_cons_True by done. by rewrite IH. }
  remember ((t, sc) :: results) as results' eqn:Hresults.
  assert (fetchUserStats (Some (rowsOf results')) =
          {| puzzles_completed :=
               length (filter (λ record, truthyString (completed_at record) = true)
                         (rowsOf results'));
             total_score :=
               foldl (λ sum record, addNumber sum (scoreOrZero record)) 0
                 (rowsOf results');
             best_time :=
               foldl minStep None
                 (filter (λ record, truthyNumber (time_taken record) = true)
                    (rowsOf results')) |}) as -> by (by rewrite Hresults).
  rewrite Hdone, (Htimes _ Hnz), foldl_scores by done.
  unfold specStats. f_equal.
  - unfold rowsOf. by rewrite length_fmap.
  - rewrite Hresults.
    change (foldl minStep (Some t) (rowsOf results)
            = Some (foldr Z.min t (fst <$> results))).
    apply foldl_minStep.
Qed.

(** C6, evaluated on the history of a user with two Results, one with an
    elapsed time of 0 seconds and score 1000 and one with 90 seconds and
    score 910: the count and the total are those of the data model, but
    the best time returned is 90 where the least elapsed time is 0,
    because the filter on [time_taken] drops the Result whose time is
    0.  With the Result of 0 seconds alone, no best time is returned.  On
    the two Results of 120 and 90 seconds the best time is 90, and with no
    Result the statistics are all zero and none. *)
Theorem fetchUserStats_zero_time :
  fetchUserStats (Some (rowsOf [(0, 1000); (90, 910)])) = mkStats 2 1910 (Some 90) ∧
  specStats [(0, 1000); (90, 910)] = mkStats 2 1910 (Some 0) ∧
  fetchUserStats (Some (rowsOf [(0, 1000)])) = mkStats 1 1000 None ∧
  specStats [(0, 1000)] = mkStats 1 1000 (Some 0) ∧
  fetchUserStats (Some (rowsOf [(120, 880); (90, 910)])) = mkStats 2 1790 (Some 90) ∧
  fetchUserStats (Some (rowsOf [])) = mkStats 0 0 None.
Proof. by vm_compute. Qed.

End GameDashboardFacts.

(** ** Further facts about the puzzle session: what drops keep, what the
    board shows *)

Module PuzzleBoardFacts.
Import PuzzleGame PuzzleGameFacts.

(** *** Every entry after a drop comes from the entry at the same index *)

Lemma dropUpdater_elem dragged targetPosition ps k q' :
  dropUpdater dragged targetPosition ps !! k = Some q' →
  ∃ q, ps !! k = Some q ∧
       (q' = q ∨ q' = evict q ∨ q' = place targetPosition q).
Proof.
  destruct (list_find (λ p, id p = dragged) ps) as [[pieceIndex x]|] eqn:Hfind.
  - destruct (decide (k = pieceIndex)) as [->|Hne].
    + erewrite dropUpdater_lookup_dragged by done. intros [= <-].
      apply list_find_Some in Hfind as (Hx & _ & _). eauto.
    + intros Hq'. eapply dropUpdater_lookup_cases in Hq'; [|done..].
      destruct Hq' as [Hq|(q & Hq & -> & _)]; eauto.
  - unfold dropUpdater. rewrite Hfind. eauto.
Qed.

Lemma dropUpdater_field {B} (f : PuzzlePiece → B) dragged targetPosition ps :
  (∀ q, f (evict q) = f q) → (∀ q, f (place targetPosition q) = f q) →
  f <$> dropUpdater dragged targetPosition ps = f <$> ps.
Proof.
  intros Hevict Hplace. apply list_eq. intros k. rewrite !list_lookup_fmap.
  destruct (dropUpdater dragged targetPosition ps !! k) as [q'|] eqn:Hq'.
  - apply dropUpdater_elem in Hq' as (q & Hq & [-> | [-> | ->] ]);
      rewrite Hq; simpl; by rewrite ?Hevict, ?Hplace.
  - apply lookup_ge_None in Hq'. rewrite dropUpdater_length in Hq'.
    apply lookup_ge_None in Hq'. by rewrite Hq'.
Qed.

Lemma step_fields ev st :
  id <$> pieces (step ev st) = id <$> pieces st ∧
  correctPosition <$> pieces (step ev st) = correctPosition <$> pieces st.
Proof.
  destruct (step_pieces ev st) as [->|(d & t & ->)]; [done|].
  split; by apply dropUpdater_field.
Qed.

Lemma run_fields evs st :
  id <$> pieces (run evs st) = id <$> pieces st ∧
  correctPosition <$> pieces (run evs st) = correctPosition <$> pieces st.
Proof.
  revert st. induction evs as [|ev evs IH]; intros st; [done|].
  change (run (ev :: evs) st) with (run evs (step ev st)).
  destruct (IH (step ev st)) as [-> ->]. apply step_fields.
Qed.

(** X1: drags and drops never create, lose, reorder or relabel a piece.
    In every state of a session the piece array has the [n] pieces of the
    shuffle in the order the shuffle left them, with the ids [0 .. n-1],
    each once, and [correctPosition] equal to [id]. *)
Theorem session_keeps_pieces shuffle n startTime endTime outcome evs :
  (∀ l, shuffle l ≡ₚ l) →
  let ps := pieces (run evs (mount shuffle n startTime endTime outcome)) in
  length ps = n ∧
  id <$> ps = id <$> initializePuzzle shuffle n ∧
  id <$> ps ≡ₚ Z.of_nat <$> seq 0 n ∧
  correctPosition <$> ps = id <$> ps.
Proof.
  intros Hperm ps.
  destruct (run_fields evs (mount shuffle n startTime endTime outcome))
    as [Hids Hcorrect].
  destruct (mount_unfold shuffle n startTime endTime outcome) as (Hmount & _).
  rewrite Hmount in Hids, Hcorrect. fold ps in Hids, Hcorrect.
  assert (id <$> initializePuzzle shuffle n ≡ₚ Z.of_nat <$> seq 0 n) as Hseq
    by (unfold initializePuzzle; by rewrite Hperm, initialPieces_ids).
  split_and!.
  - rewrite <- (length_fmap id ps), Hids, Hseq, length_fmap. apply length_seq.
  - done.
  - by rewrite Hids.
  - rewrite Hids, Hcorrect. unfold initializePuzzle.
    apply list_eq. intros k. rewrite !list_lookup_fmap.
    destruct (shuffle (initialPieces n) !! k) as [q|] eqn:Hq; [|done].
    assert (q ∈ initialPieces n) as Hin
      by (rewrite <- (Hperm (initialPieces n)); by eapply list_elem_of_lookup_2).
    apply list_elem_of_fmap in Hin as (i & -> & _). done.
Qed.

Lemma session_keeps_pieces_witness :
  length (pieces sampleDragging) = 4%nat ∧
  id <$> pieces sampleDragging = [3; 2; 1; 0] ∧
  correctPosition <$> pieces sampleDragging = id <$> pieces sampleDragging.
Proof.
  destruct (session_keeps_pieces reverse 4 0 250 InsertOk
              [DragStart 0; Drop 1 9000 InsertOk;
               DragStart 1; Drop 0 12000 InsertOk; DragStart 0]
              reverse_Permutation) as (Hlen & Hids & _ & Hcorrect).
  split; [exact Hlen|]. split; [exact Hids|exact Hcorrect].
Defined.

(** *** Placed means on the board *)

Lemma dropUpdater_consistent n dragged targetPosition ps :
  0 ≤ targetPosition < Z.of_nat n →
  Forall (placementConsistent n) ps →
  Forall (placementConsistent n) (dropUpdater dragged targetPosition ps).
Proof.
  intros Hrange Hps. apply Forall_lookup. intros k q' Hq'.
  apply dropUpdater_elem in Hq' as (q & Hq & [-> | [-> | ->] ]).
  - by eapply Forall_lookup_1.
  - by left.
  - by right.
Qed.

Lemma step_consistent n ev st :
  boardEvent n ev →
  Forall (placementConsistent n) (pieces st) →
  Forall (placementConsistent n) (pieces (step ev st)).
Proof.
  intros Hev Hst.
  destruct ev as [pieceId|targetPosition endTime outcome]; simpl in *; [done|].
  unfold handleDrop. destruct (draggedPiece st) as [dragged|]; [|done].
  rewrite checkGameCompletion_pieces. simpl. by apply dropUpdater_consistent.
Qed.

Lemma run_consistent n evs st :
  Forall (boardEvent n) evs →
  Forall (placementConsistent n) (pieces st) →
  Forall (placementConsistent n) (pieces (run evs st)).
Proof.
  intros Hevs. revert st. induction Hevs as [|ev evs Hev _ IH]; intros st Hst; [done|].
  change (run (ev :: evs) st) with (run evs (step ev st)).
  by apply IH, step_consistent.
Qed.

(** X2: in a session driven through the board, whose drop targets are the
    cells [0 .. n-1], every piece is at all times either in the pieces
    area and not placed ([currentPosition = -1], [isPlaced = false]) or
    placed on a cell of the board ([0 <= currentPosition < n],
    [isPlaced = true]). *)
Theorem board_session_consistent shuffle n startTime endTime outcome evs :
  (∀ l, shuffle l ≡ₚ l) →
  Forall (boardEvent n) evs →
  Forall (placementConsistent n)
    (pieces (run evs (mount shuffle n startTime endTime outcome))).
Proof.
  intros Hperm Hevs. apply run_consistent; [done|].
  destruct (mount_unfold shuffle n startTime endTime outcome) as (-> & _).
  eapply Forall_impl; [by apply initializePuzzle_staged|].
  intros p Hp. by left.
Qed.

Lemma board_session_consistent_witness :
  Forall (placementConsistent 4) (pieces sampleDragging).
Proof.
  apply (board_session_consistent reverse 4 0 250 InsertOk); [apply reverse_Permutation|].
  repeat constructor; simpl; lia.
Defined.

(** *** The invariants of a session driven through the board *)

Lemma board_session_invariants shuffle n startTime endTime outcome evs :
  (∀ l, shuffle l ≡ₚ l) →
  Forall (boardEvent n) evs →
  let ps := pieces (run evs (mount shuffle n startTime endTime outcome)) in
  idsUnique ps ∧ slotUnique ps ∧
  Forall (placementConsistent n) ps ∧
  correctPosition <$> ps ≡ₚ Z.of_nat <$> seq 0 n.
Proof.
  intros Hperm Hevs ps.
  assert (reachable (run evs (mount shuffle n startTime endTime outcome))) as Hreach
    by by apply reachable_run, reachable_mount.
  destruct (reachable_wellformed _ Hreach) as [Hids Hslots].
  destruct (mount_unfold shuffle n startTime endTime outcome) as (Hmount & _).
  split_and!; [done|done|..].
  - apply run_consistent; [done|]. rewrite Hmount.
    eapply Forall_impl; [by apply initializePuzzle_staged|].
    intros p Hp. by left.
  - unfold ps.
    rewrite (proj2 (run_fields evs (mount shuffle n startTime endTime outcome))).
    rewrite Hmount. unfold initializePuzzle.
    by rewrite Hperm, initialPieces_correct.
Qed.

Lemma sampleDragging_invariants :
  idsUnique (pieces sampleDragging) ∧ slotUnique (pieces sampleDragging) ∧
  Forall (placementConsistent 4) (pieces sampleDragging) ∧
  correctPosition <$> pieces sampleDragging ≡ₚ Z.of_nat <$> seq 0 4.
Proof.
  apply (board_session_invariants reverse 4 0 250 InsertOk); [apply reverse_Permutation|].
  repeat constructor; simpl; lia.
Qed.

(** *** What the board shows *)

Lemma boardCell_Some index ps p :
  boardCell index ps = Some p →
  p ∈ ps ∧ currentPosition p = Z.of_nat index.
Proof.
  unfold boardCell. intros ([k q] & Hfind & ->)%fmap_Some. simpl.
  apply list_find_Some in Hfind as (Hq & Hcur & _).
  split; [by eapply list_elem_of_lookup_2|done].
Qed.

Lemma boardCell_occupant index ps k p :
  slotUnique ps → ps !! k = Some p → currentPosition p = Z.of_nat index →
  boardCell index ps = Some p.
Proof.
  intros Hslots Hp Hcur. unfold boardCell. rewrite <- Hcur.
  rewrite (find_by_slot ps k p); [done..|lia].
Qed.

(** X3: with at most one piece per slot and every piece either staged or
    placed on the board, each piece is drawn exactly once: an unplaced
    piece is in the pieces area and in no cell of the board, a placed
    piece is outside the pieces area and in exactly one cell, the cell of
    its [currentPosition], which is one of the [n] cells. *)
Theorem piece_shown_once n ps i p :
  slotUnique ps → Forall (placementConsistent n) ps → ps !! i = Some p →
  (isPlaced p = false ∧ p ∈ unplacedPieces ps ∧
   ∀ index, boardCell index ps ≠ Some p) ∨
  (isPlaced p = true ∧ (p ∉ unplacedPieces ps) ∧
   ∃ index, (index < n)%nat ∧ boardCell index ps = Some p ∧
            ∀ index', boardCell index' ps = Some p → index' = index).
Proof.
  intros Hslots Hcons Hp.
  assert (p ∈ ps) as Hin by by eapply list_elem_of_lookup_2.
  destruct (Forall_lookup_1 _ _ _ _ Hcons Hp) as [[Hcur Hplaced]|[Hcur Hplaced]].
  - left. split_and!; [done| |].
    + unfold unplacedPieces. by apply list_elem_of_filter.
    + intros index [_ Hidx]%boardCell_Some. lia.
  - right. split_and!; [done| |].
    + unfold unplacedPieces. intros [Hfalse _]%list_elem_of_filter. congruence.
    + exists (Z.to_nat (currentPosition p)). split_and!.
      * lia.
      * eapply boardCell_occupant; [done..|lia].
      * intros index' [_ Hidx]%boardCell_Some. lia.
Qed.

Lemma piece_shown_once_witness :
  boardCell 1 (pieces sampleDragging) = Some (mkPiece 0 0 1 true) ∧
  mkPiece 0 0 1 true ∉ unplacedPieces (pieces sampleDragging).
Proof.
  destruct sampleDragging_invariants as (_ & Hslots & Hcons & _).
  destruct (piece_shown_once 4 (pieces sampleDragging) 3 (mkPiece 0 0 1 true)
              Hslots Hcons eq_refl)
    as [(Hfalse & _)|(_ & Hout & index & _ & Hcell & _)]; [discriminate|].
  split; [|exact Hout].
  destruct (boardCell_Some _ _ _ Hcell) as [_ Hidx]. simpl in Hidx.
  assert (index = 1%nat) as -> by lia. exact Hcell.
Defined.

(** X4: in a piece set with one piece for each correct position
    [0 .. n-1], at most one piece per slot and every piece staged or
    placed on the board, all [n] cells of the board are green exactly
    when the completion predicate of [checkGameCompletion] holds. *)
Theorem board_green_iff_solved n ps :
  slotUnique ps → Forall (placementConsistent n) ps →
  correctPosition <$> ps ≡ₚ Z.of_nat <$> seq 0 n →
  (∀ index, (index < n)%nat → isCorrect index ps = true) ↔ allPlaced ps = true.
Proof.
  intros Hslots Hcons Hcorrect. split.
  - intros Hgreen. apply allPlaced_spec, Forall_lookup. intros i p Hp.
    assert (correctPosition p ∈ Z.of_nat <$> seq 0 n) as Hc.
    { rewrite <- Hcorrect. apply list_elem_of_fmap. exists p.
      split; [done|by eapply list_elem_of_lookup_2]. }
    apply list_elem_of_fmap in Hc as (c & Hc & Hrange).
    apply elem_of_seq in Hrange.
    assert (c < n)%nat as Hlt by lia.
    specialize (Hgreen c Hlt). unfold isCorrect in Hgreen.
    destruct (boardCell c ps) as [q|] eqn:Hcell; [|done].
    apply bool_decide_eq_true in Hgreen.
    pose proof Hcell as ([k q0] & Hfind & Hq0)%fmap_Some. simpl in Hq0. subst q0.
    apply list_find_Some in Hfind as (Hq & Hcur & _).
    assert (NoDup (correctPosition <$> ps)) as Hnd.
    { rewrite Hcorrect. apply NoDup_fmap_2; [apply _|apply NoDup_seq]. }
    assert (k = i) as ->.
    { eapply (NoDup_lookup _ k i (correctPosition q)); [exact Hnd|..].
      - by rewrite list_lookup_fmap, Hq.
      - rewrite list_lookup_fmap, Hp. simpl. congruence. }
    assert (q = p) as -> by congruence.
    destruct (Forall_lookup_1 _ _ _ _ Hcons Hp) as [[Hstaged _]|[_ Hplaced]]; [lia|].
    split; [done|congruence].
  - intros Hall index Hindex. apply allPlaced_spec in Hall.
    assert (Z.of_nat index ∈ correctPosition <$> ps) as Hc.
    { rewrite Hcorrect. apply list_elem_of_fmap. exists index.
      split; [done|]. apply elem_of_seq. lia. }
    apply list_elem_of_fmap in Hc as (p & Hc & Hin).
    apply list_elem_of_lookup in Hin as [k Hp].
    destruct (Forall_lookup_1 _ _ _ _ Hall Hp) as [_ Hcur].
    unfold isCorrect. erewrite boardCell_occupant; [|done..|congruence].
    apply bool_decide_eq_true. congruence.
Qed.

Lemma board_green_iff_solved_witness :
  isCorrect 0 (pieces sampleOnePiece) = true.
Proof.
  destruct (board_session_invariants reverse 1 0 250 InsertOk
              [DragStart 0; Drop 0 20000 InsertOk] reverse_Permutation)
    as (_ & Hslots & Hcons & Hcorrect); [repeat constructor; simpl; lia|].
  apply (proj2 (board_green_iff_solved 1 (pieces sampleOnePiece)
                  Hslots Hcons Hcorrect)); [reflexivity|lia].
Defined.

(** *** Where a drop puts the dragged piece *)

(** X5: whatever was on the target cell, after dropping an existing piece
    [A] on a cell [targetPosition >= 0] of a piece set with distinct ids
    and at most one piece per slot, [A] is placed on the target and is the
    only piece there, and every other piece is either untouched or the
    former occupant of the target, sent back to the pieces area. *)
Theorem drop_lands_on_target st targetPosition i A :
  idsUnique (pieces st) → slotUnique (pieces st) →
  pieces st !! i = Some A → draggedPiece st = Some (id A) →
  0 ≤ targetPosition →
  let ps' := pieces (handleDrop targetPosition st) in
  ps' !! i = Some (mkPiece (id A) (correctPosition A) targetPosition true) ∧
  (∀ k q, ps' !! k = Some q → currentPosition q = targetPosition → k = i) ∧
  (∀ k q', k ≠ i → ps' !! k = Some q' →
     pieces st !! k = Some q' ∨
     ∃ q, pieces st !! k = Some q ∧ currentPosition q = targetPosition ∧
          q' = mkPiece (id q) (correctPosition q) (-1) false).
Proof.
  intros Hids Hslots HA Hdrag Htarget ps'.
  assert (list_find (λ p, id p = id A) (pieces st) = Some (i, A)) as HfindA
    by by apply find_by_id.
  assert (ps' = dropUpdater (id A) targetPosition (pieces st)) as Hps'
    by (unfold ps', handleDrop; by rewrite Hdrag).
  assert (ps' !! i = Some (place targetPosition A)) as Hi
    by (rewrite Hps'; by eapply dropUpdater_lookup_dragged).
  split_and!; [done|..].
  - intros k q Hq Hcur.
    assert (slotUnique ps') as Hslots'
      by (rewrite Hps'; by apply slotUnique_dropUpdater).
    eapply (Hslots' k i q (place targetPosition A)); [done|done|lia|done].
  - intros k q' Hk Hq'. rewrite Hps' in Hq'.
    eapply dropUpdater_lookup_cases in Hq'; [|done..].
    destruct Hq' as [Hq|(q & Hq & -> & Hcur)]; [by left|].
    right. exists q. done.
Qed.

Lemma drop_lands_on_target_witness :
  pieces (handleDrop 2 sampleDragging) !! 3%nat = Some (mkPiece 0 0 2 true).
Proof.
  destruct sampleDragging_invariants as (Hids & Hslots & _).
  destruct (drop_lands_on_target sampleDragging 2 3 (mkPiece 0 0 1 true)
              Hids Hslots eq_refl eq_refl) as (HA & _); [lia|].
  exact HA.
Defined.

(** X6: dropping an existing piece on a cell that no piece occupies
    changes that piece alone: nobody is evicted and the piece array is
    the old one with the dragged piece placed on the target. *)
Theorem drop_onto_free_slot st targetPosition i A :
  idsUnique (pieces st) →
  pieces st !! i = Some A → draggedPiece st = Some (id A) →
  (∀ p, p ∈ pieces st → currentPosition p ≠ targetPosition) →
  pieces (handleDrop targetPosition st)
  = <[i := mkPiece (id A) (correctPosition A) targetPosition true]> (pieces st).
Proof.
  intros Hids HA Hdrag Hfree.
  assert (list_find (λ p, id p = id A) (pieces st) = Some (i, A)) as HfindA
    by by apply find_by_id.
  assert (list_find (λ p, currentPosition p = targetPosition) (pieces st) = None)
    as Hnone by by apply list_find_None, Forall_forall.
  unfold handleDrop. rewrite Hdrag. simpl.
  unfold dropUpdater. rewrite HfindA, Hnone.
  apply list_eq. intros k. destruct (decide (k = i)) as [->|Hk].
  - rewrite list_lookup_alter_eq, HA, list_lookup_insert_eq; [done|].
    by eapply lookup_lt_Some.
  - by rewrite list_lookup_alter_ne, list_lookup_insert_ne.
Qed.

Lemma drop_onto_free_slot_witness :
  pieces (handleDrop 2 sampleDragging) =
    [mkPiece 3 3 (-1) false; mkPiece 2 2 (-1) false;
     mkPiece 1 1 0 true; mkPiece 0 0 2 true].
Proof.
  destruct sampleDragging_invariants as (Hids & _).
  rewrite (drop_onto_free_slot sampleDragging 2 3 (mkPiece 0 0 1 true)
             Hids eq_refl eq_refl); [reflexivity|].
  apply (proj1 (Forall_forall (λ p, currentPosition p ≠ 2) _)).
  vm_compute. repeat constructor; discriminate.
Defined.

(** *** A drop uses up the drag *)

Lemma checkGameCompletion_dragged endTime outcome st :
  draggedPiece (checkGameCompletion endTime outcome st) = draggedPiece st.
Proof.
  unfold checkGameCompletion.
  destruct (allPlaced (pieces st) && negb (gameCompleted st)); [|done].
  by destruct outcome.
Qed.

Lemma step_drop_clears targetPosition endTime outcome st :
  draggedPiece (step (Drop targetPosition endTime outcome) st) = None.
Proof.
  simpl. unfold handleDrop.
  destruct (draggedPiece st) as [dragged|] eqn:Hdrag; [|done].
  by rewrite checkGameCompletion_dragged.
Qed.

(** X7: a drop clears the drag marker, so further drops that are not
    preceded by a new drag start change nothing at all: neither the
    pieces nor the completed flag, and no completion check is run. *)
Theorem drop_uses_up_the_drag targetPosition endTime outcome drops st :
  Forall (λ ev, ∃ t e o, ev = Drop t e o) drops →
  run drops (step (Drop targetPosition endTime outcome) st)
  = step (Drop targetPosition endTime outcome) st.
Proof.
  intros Hdrops.
  pose proof (step_drop_clears targetPosition endTime outcome st) as Hclear.
  revert Hclear. generalize (step (Drop targetPosition endTime outcome) st).
  induction Hdrops as [|ev drops (t & e & o & ->) _ IH]; intros st' Hclear; [done|].
  change (run (Drop t e o :: drops) st') with (run drops (step (Drop t e o) st')).
  assert (step (Drop t e o) st' = st') as ->.
  { simpl. unfold handleDrop. by rewrite Hclear. }
  by apply IH.
Qed.

Lemma drop_uses_up_the_drag_witness :
  run [Drop 3 14000 InsertOk; Drop 0 15000 InsertOk]
    (step (Drop 2 13000 InsertOk) sampleDragging)
  = step (Drop 2 13000 InsertOk) sampleDragging.
Proof.
  apply (drop_uses_up_the_drag 2 13000 InsertOk).
  repeat constructor; eauto.
Defined.

(** *** Exchanging two placed pieces *)

(** X8: two placed pieces exchange their cells in two moves: dragging [A]
    onto the cell of [B] sends [B] to the pieces area, and dragging [B]
    onto the cell [A] has left puts it there.  Afterwards [A] is placed
    on the former cell of [B], [B] on the former cell of [A], and every
    other piece is unchanged. *)
Theorem exchange_in_two_moves st a b i j A B e1 o1 e2 o2 :
  idsUnique (pieces st) → slotUnique (pieces st) →
  pieces st !! i = Some A → pieces st !! j = Some B → i ≠ j →
  currentPosition A = a → currentPosition B = b → 0 ≤ a → 0 ≤ b →
  let ps' := pieces (run [DragStart (id A); Drop b e1 o1;
                          DragStart (id B); Drop a e2 o2] st) in
  ps' !! i = Some (mkPiece (id A) (correctPosition A) b true) ∧
  ps' !! j = Some (mkPiece (id B) (correctPosition B) a true) ∧
  (∀ k, k ≠ i → k ≠ j → ps' !! k = pieces st !! k).
Proof.
  intros Hids Hslots HA HB Hij Ha Hb Hposa Hposb ps'.
  set (ps1 := dropUpdater (id A) b (pieces st)).
  assert (ps' = dropUpdater (id B) a ps1) as Hps'.
  { unfold ps', run. simpl. unfold handleDrop. simpl.
    by rewrite !checkGameCompletion_pieces. }
  assert (a ≠ b) as Hab.
  { intros Heq. apply Hij. eapply (Hslots i j A B); eauto; lia. }
  assert (list_find (λ p, id p = id A) (pieces st) = Some (i, A)) as HfindA
    by by apply find_by_id.
  assert (list_find (λ p, currentPosition p = b) (pieces st) = Some (j, B)) as HfindB
    by (rewrite <- Hb; apply find_by_slot; [done..|lia]).
  assert (ps1 !! i = Some (place b A)) as H1i
    by by eapply dropUpdater_lookup_dragged.
  assert (ps1 !! j = Some (evict B)) as H1j
    by (eapply dropUpdater_lookup_occupant; eauto).
  assert (∀ k, k ≠ i → k ≠ j → ps1 !! k = pieces st !! k) as H1rest.
  { intros k Hki Hkj. eapply dropUpdater_lookup_other; [done..|].
    intros y Hy. rewrite HfindB in Hy. congruence. }
  assert (list_find (λ p, id p = id B) ps1 = Some (j, evict B)) as Hfind1B.
  { apply (find_by_id ps1 j (evict B)); [|done].
    by apply idsUnique_dropUpdater. }
  assert (list_find (λ p, currentPosition p = a) ps1 = None) as Hfree.
  { apply list_find_None, Forall_lookup. intros k q Hq Hcur.
    destruct (decide (k = i)) as [->|Hki].
    { rewrite H1i in Hq. simplify_eq/=. }
    destruct (decide (k = j)) as [->|Hkj].
    { rewrite H1j in Hq. simplify_eq/=. lia. }
    rewrite H1rest in Hq by done.
    apply Hki. eapply (Hslots k i q A); eauto; lia. }
  assert (ps' = alter (place a) j ps1) as Hps''.
  { rewrite Hps'. unfold dropUpdater. by rewrite Hfind1B, Hfree. }
  split_and!.
  - rewrite Hps'', list_lookup_alter_ne by done. by rewrite H1i.
  - rewrite Hps'', list_lookup_alter_eq, H1j. done.
  - intros k Hki Hkj. rewrite Hps'', list_lookup_alter_ne by done.
    by apply H1rest.
Qed.

Lemma exchange_in_two_moves_witness :
  pieces (run [DragStart 0; Drop 0 13000 InsertOk;
               DragStart 1; Drop 1 14000 InsertOk] sampleDragging) !! 3%nat
  = Some (mkPiece 0 0 0 true) ∧
  pieces (run [DragStart 0; Drop 0 13000 InsertOk;
               DragStart 1; Drop 1 14000 InsertOk] sampleDragging) !! 2%nat
  = Some (mkPiece 1 1 1 true).
Proof.
  destruct sampleDragging_invariants as (Hids & Hslots & _).
  destruct (exchange_in_two_moves sampleDragging 1 0 3 2
              (mkPiece 0 0 1 true) (mkPiece 1 1 0 true)
              13000 InsertOk 14000 InsertOk Hids Hslots eq_refl eq_refl)
    as (HA & HB & _); [lia|reflexivity|reflexivity|lia|lia|].
  split; [exact HA|exact HB].
Defined.

(** *** The completion panel *)

(** X9: the "Puzzle Complete" panel is rendered only for a non-zero
    completion time.  In a session whose first completion check runs
    less than a second after the first render, the session is completed
    with a completion time of 0 and the panel is never rendered, whatever
    the user does afterwards, solving the puzzle included. *)
Theorem panel_never_shown shuffle n startTime endTime outcome evs :
  0 ≤ endTime - startTime < 1000 →
  let st := run evs (mount shuffle n startTime endTime outcome) in
  gameCompleted st = true ∧ completionTime st = Some 0 ∧ bannerShown st = false.
Proof.
  intros Hquick st.
  destruct (mount_unfold shuffle n startTime endTime outcome)
    as (_ & _ & Hc & Ht & _).
  destruct (run_completed evs _ Hc) as (Hc' & Ht' & _).
  fold st in Hc', Ht'. rewrite Ht in Ht'.
  rewrite Z.div_small in Ht' by done.
  split_and!; [done|done|]. unfold bannerShown. by rewrite Hc', Ht'.
Qed.

Lemma panel_never_shown_witness :
  allPlaced (pieces sampleOnePiece) = true ∧ bannerShown sampleOnePiece = false.
Proof.
  split; [reflexivity|].
  apply (panel_never_shown reverse 1 0 250 InsertOk
           [DragStart 0; Drop 0 20000 InsertOk]). lia.
Defined.

(** *** The score and the clock *)

(** X15: for one and the same solved board, a check that reads the clock
    later stores a score that is not higher; the stored score is never
    below 100, and it is at most 1000 unless the clock reads a time
    before the start of the session. *)
Theorem score_rewards_speed st endTime1 endTime2 outcome1 outcome2 :
  allPlaced (pieces st) = true → gameCompleted st = false →
  endTime1 ≤ endTime2 →
  ∃ row1 row2,
    insertCalls (checkGameCompletion endTime1 outcome1 st) = insertCalls st ++ [row1] ∧
    insertCalls (checkGameCompletion endTime2 outcome2 st) = insertCalls st ++ [row2] ∧
    time_taken row1 ≤ time_taken row2 ∧
    score row2 ≤ score row1 ∧
    100 ≤ score row2 ∧
    (gameStartTime st ≤ endTime1 → score row1 ≤ 1000).
Proof.
  intros Hall Hnot Hle.
  destruct (checkGameCompletion_fired endTime1 outcome1 st Hall Hnot)
    as (_ & _ & _ & _ & Hi1).
  destruct (checkGameCompletion_fired endTime2 outcome2 st Hall Hnot)
    as (_ & _ & _ & _ & Hi2).
  eexists _, _. split; [exact Hi1|]. split; [exact Hi2|]. simpl.
  assert ((endTime1 - gameStartTime st) `div` 1000
          ≤ (endTime2 - gameStartTime st) `div` 1000) as Hdiv
    by (apply Z.div_le_mono; lia).
  split_and!; [lia..|].
  intros Hclock.
  assert (0 ≤ (endTime1 - gameStartTime st) `div` 1000)
    by (apply Z.div_pos; lia).
  lia.
Qed.

Lemma score_rewards_speed_witness :
  ∃ row1 row2,
    insertCalls (checkGameCompletion 5000 InsertOk sampleSolved) = [row1] ∧
    insertCalls (checkGameCompletion 65000 InsertOk sampleSolved) = [row2] ∧
    score row2 ≤ score row1.
Proof.
  destruct (score_rewards_speed sampleSolved 5000 65000 InsertOk InsertOk)
    as (row1 & row2 & H1 & H2 & _ & Hle & _); [reflexivity|reflexivity|lia|].
  exists row1, row2. split; [exact H1|]. split; [exact H2|exact Hle].
Defined.

End PuzzleBoardFacts.

(** ** Further facts about the dashboard statistics *)

Module DashboardStatsFacts.
Import GameDashboard GameDashboardFacts.

(** [fetchUserStats] on any array of rows, the empty one included. *)
Lemma fetchUserStats_unfold rows :
  fetchUserStats (Some rows) =
  {| puzzles_completed :=
       length (filter (λ record, truthyString (completed_at record) = true) rows);
     total_score := foldl (λ sum record, addNumber sum (scoreOrZero record)) 0 rows;
     best_time :=
       foldl minStep None
         (filter (λ record, truthyNumber (time_taken record) = true) rows) |}.
Proof. by destruct rows. Qed.

(** With score magnitudes adding up to less than [2^53], the total is
    the exact sum of the scores. *)
Lemma total_score_exact rows :
  scoreMass rows < 2 ^ 53 →
  total_score (fetchUserStats (Some rows)) = foldr Z.add 0 (scoreOrZero <$> rows).
Proof.
  intros Hsafe. rewrite fetchUserStats_unfold. simpl.
  rewrite foldl_addNumber_exact by (simpl; lia). lia.
Qed.

Lemma sum_Permutation (l l' : list Z) :
  l ≡ₚ l' → foldr Z.add 0 l = foldr Z.add 0 l'.
Proof.
  induction 1 as [|x l l' _ IH|x y l|l l' l'' _ IH1 _ IH2]; simpl; lia.
Qed.

Lemma scoreMass_Permutation rows rows' :
  rows ≡ₚ rows' → scoreMass rows = scoreMass rows'.
Proof. intros Hperm. unfold scoreMass. apply sum_Permutation. by rewrite Hperm. Qed.

Lemma scoreMass_app rows rows' :
  scoreMass (rows ++ rows') = scoreMass rows + scoreMass rows'.
Proof.
  induction rows as [|r rows IH]; [done|].
  change ((r :: rows) ++ rows') with (r :: (rows ++ rows')).
  rewrite !scoreMass_cons, IH. lia.
Qed.

Lemma sum_app (l l' : list Z) :
  foldr Z.add 0 (l ++ l') = foldr Z.add 0 l + foldr Z.add 0 l'.
Proof. induction l as [|x l IH]; simpl; lia. Qed.

(** *** The best time *)

Lemma foldl_minStep_None rows acc :
  foldl minStep acc rows = None ↔
  acc = None ∧ ∀ r, r ∈ rows → time_taken r = None.
Proof.
  revert acc. induction rows as [|r rows IH]; intros acc; simpl.
  - split; [intros ->; split; [done|]; intros r Hr; by apply elem_of_nil in Hr|].
    by intros [-> _].
  - rewrite IH. unfold minStep at 1. split.
    + intros [Hstep Hrows].
      destruct (time_taken r) as [t|] eqn:Ht; [by destruct acc|].
      split; [done|]. intros r' [->|Hr']%elem_of_cons; auto.
    + intros [-> Hrows]. rewrite (Hrows r) by (apply elem_of_cons; auto).
      split; [done|]. intros r' Hr'. apply Hrows, elem_of_cons. auto.
Qed.

Lemma foldl_minStep_Some rows acc m :
  foldl minStep acc rows = Some m →
  (acc = Some m ∨ ∃ r, r ∈ rows ∧ time_taken r = Some m) ∧
  (∀ a, acc = Some a → m ≤ a) ∧
  (∀ r t, r ∈ rows → time_taken r = Some t → m ≤ t).
Proof.
  revert acc. induction rows as [|r rows IH]; intros acc; simpl.
  - intros ->. split_and!; [by left|by intros a [= ->]|].
    intros r t Hr. by apply elem_of_nil in Hr.
  - intros Hfold. apply IH in Hfold as (Hwhere & Hacc & Hrows).
    unfold minStep in Hwhere, Hacc.
    destruct (time_taken r) as [t|] eqn:Ht.
    + assert (∃ b, (match acc with None => Some t | Some m0 => Some (Z.min m0 t) end)
                   = Some b ∧ b ≤ t ∧ (∀ a, acc = Some a → b ≤ a) ∧
                   (b = t ∨ acc = Some b)) as (b & Hb & Hbt & Hba & Hbwhere).
      { destruct acc as [a|].
        - exists (Z.min a t). split_and!; [done|lia|intros ? [= ->]; lia|].
          destruct (Z.min_spec a t) as [[_ ->]|[_ ->]]; auto.
        - exists t. split_and!; [done|lia|done|by left]. }
      rewrite Hb in Hwhere, Hacc. specialize (Hacc b eq_refl).
      split_and!.
      * destruct Hwhere as [[= <-]|(r' & Hr' & Hm)].
        -- destruct Hbwhere as [->|Hb']; [|by left].
           right. exists r. split; [apply elem_of_cons; auto|done].
        -- right. exists r'. split; [apply elem_of_cons; auto|done].
      * intros a Ha. specialize (Hba a Ha). lia.
      * intros r' t' [->|Hr']%elem_of_cons Ht'.
        -- rewrite Ht in Ht'. simplify_eq. lia.
        -- by eapply Hrows.
    + split_and!.
      * destruct Hwhere as [?|(r' & Hr' & Hm)]; [by left|].
        right. exists r'. split; [apply elem_of_cons; auto|done].
      * done.
      * intros r' t' [->|Hr']%elem_of_cons Ht'; [congruence|by eapply Hrows].
Qed.

(** X10: for any rows, with columns possibly [null], the best time is
    absent exactly when no row has a non-zero [time_taken]; otherwise it
    is the [time_taken] of one of the rows, it is not 0, and no row has a
    smaller non-zero [time_taken]. *)
Theorem best_time_is_least_nonzero rows :
  (best_time (fetchUserStats (Some rows)) = None ↔
   ∀ r, r ∈ rows → truthyNumber (time_taken r) = false) ∧
  (∀ m, best_time (fetchUserStats (Some rows)) = Some m →
     m ≠ 0 ∧ (∃ r, r ∈ rows ∧ time_taken r = Some m) ∧
     ∀ r t, r ∈ rows → time_taken r = Some t → t ≠ 0 → m ≤ t).
Proof.
  rewrite fetchUserStats_unfold. simpl.
  set (timed := filter (λ record, truthyNumber (time_taken record) = true) rows).
  assert (∀ r, r ∈ timed ↔ truthyNumber (time_taken r) = true ∧ r ∈ rows) as Htimed
    by (intros r; unfold timed; by rewrite list_elem_of_filter).
  split.
  - rewrite foldl_minStep_None. split.
    + intros [_ Hnone] r Hr.
      destruct (truthyNumber (time_taken r)) eqn:Htruthy; [|done].
      rewrite (Hnone r) in Htruthy by by apply Htimed. done.
    + intros Hfalsy. split; [done|]. intros r [Htruthy Hr]%Htimed.
      rewrite (Hfalsy r Hr) in Htruthy. done.
  - intros m (Hwhere & _ & Hleast)%foldl_minStep_Some.
    destruct Hwhere as [?|(r & [Htruthy Hr]%Htimed & Hm)]; [done|].
    split_and!.
    + intros ->. rewrite Hm in Htruthy. done.
    + eauto.
    + intros r' t Hr' Ht Hnz. apply (Hleast r' t); [|done].
      apply Htimed. split; [|done]. rewrite Ht. simpl.
      by destruct (Z.eqb_spec t 0).
Qed.

(** *** The order of the rows *)

Lemma foldl_Permutation {A B} (f : B → A → B) (l l' : list A) :
  (∀ b x y, f (f b x) y = f (f b y) x) →
  l ≡ₚ l' → ∀ b, foldl f b l = foldl f b l'.
Proof.
  intros Hcomm. induction 1 as [|x l l' _ IH|x y l|l l' l'' _ IH1 _ IH2];
    intros b; simpl.
  - done.
  - apply IH.
  - by rewrite Hcomm.
  - by rewrite IH1.
Qed.

Lemma minStep_comm acc x y : minStep (minStep acc x) y = minStep (minStep acc y) x.
Proof.
  unfold minStep.
  destruct (time_taken x) as [t|], (time_taken y) as [u|], acc as [a|];
    try done; f_equal; lia.
Qed.

(** X11: for rows whose score magnitudes add up to less than [2^53],
    so that the sum of the scores is exact in whatever order it is taken,
    the statistics do not depend on the order in which the query returns
    the rows. *)
Theorem fetchUserStats_order rows rows' :
  scoreMass rows < 2 ^ 53 →
  rows ≡ₚ rows' →
  fetchUserStats (Some rows) = fetchUserStats (Some rows').
Proof.
  intros Hsafe Hperm.
  assert (scoreMass rows' < 2 ^ 53) as Hsafe'
    by by rewrite <- (scoreMass_Permutation rows rows').
  pose proof (total_score_exact rows Hsafe) as Htotal.
  pose proof (total_score_exact rows' Hsafe') as Htotal'.
  rewrite !fetchUserStats_unfold in *. simpl in Htotal, Htotal'. f_equal.
  - by rewrite Hperm.
  - rewrite Htotal, Htotal'. apply sum_Permutation. by rewrite Hperm.
  - apply foldl_Permutation; [apply minStep_comm|]. by rewrite Hperm.
Qed.

Lemma fetchUserStats_order_witness :
  fetchUserStats (Some [resultRow 120 880; mkRow None None (Some 5); resultRow 90 910])
  = fetchUserStats (Some [resultRow 90 910; resultRow 120 880; mkRow None None (Some 5)]).
Proof.
  apply fetchUserStats_order; [by vm_compute|].
  apply (Permutation_app_comm [resultRow 120 880; mkRow None None (Some 5)]
           [resultRow 90 910]).
Defined.

(** *** One more row *)

(** X12: how a further row changes the statistics, for rows whose score
    magnitudes, the new one included, add up to less than [2^53]: it
    counts as a completed puzzle if its [completed_at] is set, its score
    is added ([0] for [null]), and the best time becomes its [time_taken]
    if that is not [null], not 0 and below the best time so far (or there
    is none so far). *)
Theorem fetchUserStats_one_more rows r :
  scoreMass (rows ++ [r]) < 2 ^ 53 →
  fetchUserStats (Some (rows ++ [r])) =
  {| puzzles_completed :=
       (puzzles_completed (fetchUserStats (Some rows))
        + if truthyString (completed_at r) then 1 else 0)%nat;
     total_score :=
       total_score (fetchUserStats (Some rows)) + default 0 (score r);
     best_time :=
       match time_taken r, best_time (fetchUserStats (Some rows)) with
       | Some t, Some m => if t =? 0 then Some m else Some (Z.min m t)
       | Some t, None => if t =? 0 then None else Some t
       | None, best => best
       end |}.
Proof.
  intros Hsafe.
  assert (scoreMass rows < 2 ^ 53) as Hsafe0.
  { rewrite scoreMass_app in Hsafe. pose proof (scoreMass_nonneg [r]). lia. }
  pose proof (total_score_exact _ Hsafe) as Htotal.
  pose proof (total_score_exact _ Hsafe0) as Htotal0.
  rewrite !fetchUserStats_unfold in *. simpl in Htotal, Htotal0. simpl.
  rewrite Htotal, Htotal0.
  rewrite !filter_app, foldl_app, length_app, fmap_app, sum_app. simpl. f_equal.
  - f_equal. rewrite filter_cons, filter_nil.
    destruct (decide _) as [Hd|Hd];
      destruct (truthyString (completed_at r)); done.
  - f_equal. unfold scoreOrZero, truthyNumber.
    destruct (score r) as [v|]; simpl; [|done].
    destruct (Z.eqb_spec v 0); simpl; lia.
  - rewrite filter_cons, filter_nil.
    set (best := foldl minStep None _).
    unfold truthyNumber. destruct (time_taken r) as [t|] eqn:Ht; simpl.
    + destruct (Z.eqb_spec t 0) as [->|Hnz]; simpl.
      * by destruct best.
      * unfold minStep. rewrite Ht. by destruct best.
    + by destruct best.
Qed.

Lemma fetchUserStats_one_more_witness :
  fetchUserStats (Some ([resultRow 120 880; resultRow 0 1000] ++ [resultRow 90 910]))
  = mkStats 3 2790 (Some 90).
Proof.
  rewrite (fetchUserStats_one_more [resultRow 120 880; resultRow 0 1000]
             (resultRow 90 910)); [reflexivity|by vm_compute].
Defined.

End DashboardStatsFacts.

(** ** A session seen from the dashboard *)

Module SessionStatsFacts.
Import GameDashboard GameDashboardFacts DashboardStatsFacts Persistence.

(** X13: what opening a puzzle does to the statistics.  When the first
    completion check of a session runs less than a second after the
    first render and its insert succeeds, the rows the session stores,
    added to the rows the user already has, raise the number of completed
    puzzles by one and the total score by 1000 and leave the best time as
    it is, whether or not the puzzle is solved afterwards.  This is for
    rows whose score magnitudes, with the 1000 added, stay below
    [2^53]. *)
Theorem opening_a_puzzle_scores rows shuffle n startTime endTime evs completedAt :
  completedAt ≠ [] → 0 ≤ endTime - startTime < 1000 →
  scoreMass rows + 1000 < 2 ^ 53 →
  let st := PuzzleGame.run evs
              (PuzzleGame.mount shuffle n startTime endTime PuzzleGame.InsertOk) in
  fetchUserStats (Some (rows ++ (storedRow completedAt <$> PuzzleGame.insertCalls st))) =
  {| puzzles_completed := S (puzzles_completed (fetchUserStats (Some rows)));
     total_score := total_score (fetchUserStats (Some rows)) + 1000;
     best_time := best_time (fetchUserStats (Some rows)) |}.
Proof.
  intros Hstamp Hquick Hsafe st.
  destruct (PuzzleGameFacts.mount_unfold shuffle n startTime endTime PuzzleGame.InsertOk)
    as (_ & _ & Hc & _ & Hi).
  destruct (PuzzleGameFacts.run_completed evs _ Hc) as (_ & _ & Hi' & _).
  fold st in Hi'. rewrite Hi', Hi, Z.div_small by done.
  set (row := storedRow completedAt (PuzzleGame.mkResult 0 (Z.max (1000 - 0) 100))).
  change (fetchUserStats (Some (rows ++ [row])) =
          {| puzzles_completed := S (puzzles_completed (fetchUserStats (Some rows)));
             total_score := total_score (fetchUserStats (Some rows)) + 1000;
             best_time := best_time (fetchUserStats (Some rows)) |}).
  assert (scoreMass rows < 2 ^ 53) as Hsafe0 by lia.
  assert (scoreMass (rows ++ [row]) < 2 ^ 53) as Hsafe1.
  { rewrite scoreMass_app.
    assert (scoreMass [row] = 1000) as -> by done. done. }
  pose proof (total_score_exact _ Hsafe1) as Htotal.
  pose proof (total_score_exact _ Hsafe0) as Htotal0.
  rewrite !fetchUserStats_unfold in *. simpl in Htotal, Htotal0. simpl.
  rewrite Htotal, Htotal0.
  rewrite !filter_app, foldl_app, length_app, fmap_app, sum_app.
  destruct completedAt as [|c completedAt]; [done|]. simpl.
  f_equal. lia.
Qed.

Lemma opening_a_puzzle_scores_witness :
  fetchUserStats
    (Some ([resultRow 120 880] ++
           (storedRow [2026%nat] <$> PuzzleGame.insertCalls PuzzleGame.sampleOnePiece)))
  = mkStats 2 1880 (Some 120).
Proof.
  apply (opening_a_puzzle_scores [resultRow 120 880] reverse 1 0 250
           [PuzzleGame.DragStart 0; PuzzleGame.Drop 0 20000 PuzzleGame.InsertOk]
           [2026%nat]); [done|lia|by vm_compute].
Defined.

End SessionStatsFacts.

(** ** Facts about the session gate *)

Module SessionGateFacts.
Import SessionGate.

Lemma gateRun_snoc evs ev st :
  gateRun (evs ++ [ev]) st = gateStep ev (gateRun evs st).
Proof. unfold gateRun. by rewrite foldl_app. Qed.

Lemma gateRun_user evs ev st :
  user (gateRun (evs ++ [ev]) st) = userOf (payload ev).
Proof. rewrite gateRun_snoc. by destruct ev. Qed.

Lemma gateRun_loading_kept evs st :
  Forall (λ ev, ¬ isResolution ev) evs →
  loading (gateRun evs st) = loading st.
Proof.
  induction evs as [|ev evs IH] using rev_ind; [done|].
  intros [Hevs Hev]%Forall_app. rewrite gateRun_snoc.
  apply Forall_cons_1 in Hev as [Hev _].
  destruct ev as [session|session]; simpl in *; [destruct (Hev I)|]. by apply IH.
Qed.

Lemma gateRun_loading_cleared evs st :
  Exists isResolution evs → loading (gateRun evs st) = false.
Proof.
  induction evs as [|ev evs IH] using rev_ind; [by intros ?%Exists_nil|].
  intros [Hevs|Hev]%Exists_app; rewrite gateRun_snoc.
  - destruct ev; simpl; [done|]. by apply IH.
  - apply Exists_cons in Hev as [Hev|?%Exists_nil]; [|done].
    by destruct ev.
Qed.

(** X14: the page shows the loading screen for as long as the
    [getSession] continuation has not run, whatever auth-state changes
    arrive in the meantime.  Once it has run, the page follows the
    session carried by the latest callback of either kind: the dashboard
    of its user, or the auth screen if it carried none. *)
Theorem gate_screen evs :
  (Forall (λ ev, ¬ isResolution ev) evs →
   render (gateRun evs initialGate) = LoadingScreen) ∧
  (Exists isResolution evs →
   ∀ ev, last evs = Some ev →
     render (gateRun evs initialGate) =
     match payload ev with
     | Some session => DashboardScreen (session_user session)
     | None => AuthScreen
     end).
Proof.
  split.
  - intros Hnone. unfold render. by rewrite gateRun_loading_kept.
  - intros Hsome ev Hlast. unfold render.
    rewrite gateRun_loading_cleared by done.
    destruct evs as [|ev0 evs0] using rev_ind; [done|].
    rewrite last_snoc in Hlast. injection Hlast as ->.
    rewrite gateRun_user. by destruct (payload ev).
Qed.

Lemma gate_screen_witness :
  render (gateRun [AuthStateChange (Some (mkSession 7)); SessionResolved None]
            initialGate) = AuthScreen ∧
  render (gateRun [AuthStateChange (Some (mkSession 7))] initialGate) = LoadingScreen.
Proof.
  split.
  - apply (proj2 (gate_screen [AuthStateChange (Some (mkSession 7)); SessionResolved None]))
      with (ev := SessionResolved None); [|reflexivity].
    apply Exists_cons_tl, Exists_cons_hd. exact I.
  - apply (proj1 (gate_screen [AuthStateChange (Some (mkSession 7))])).
    repeat constructor. intros [].
Defined.

End SessionGateFacts.
